(** * VocalPath: store navigation and product location

    A shallow embedding of [src/multi_tool_agent/agent.py]: the shopping-list
    tools of the conversational agent ([guardar_lista_compras],
    [obter_localizacoes_lista], [gerar_rota_otimizada], [mostrar_rota_visual])
    and the ZebraAgent simulation embedded in the same file ([utils],
    [sensors], [agent]).

    Conventions of the embedding.
    - A Python [float] is read as an exact rational ([Q]); rounding error,
      infinities and NaN are outside the model.
    - [math.hypot] / [math.dist] return a square root.  The value is kept
      exactly, as its radicand ([root]); every comparison the program makes
      on such a value is decided on the radicands, and [root_val] gives the
      real number it stands for.  In the same way the angle
      [math.degrees(math.atan2(dy, dx))] is kept as the vector it is the
      angle of ([angle]), with [angle_val] its value in degrees.
    - A Python [str] is a [string] of code points below 256 (Latin-1).
    - The two JSON files are the two fields of [Ficheiros]; a missing file
      is [None].
    - A response dictionary is [Erro e] (status "error", one constructor of
      [erro] per message) or [Sucesso a] with its data fields; the texts of
      [report] are presentation and are left out.
    - An uncaught Python exception is [None]; so is a [while] loop that has
      not ended when its fuel runs out, and the loop of the route is proved
      to end within the fuel it is given.
    - [random.random()] is a sequence of draws and a counter of the draws
      already made. *)

From Stdlib Require Import QArith Qround Qabs Reals Qreals Lia Psatz.
From Stdlib Require Import Ascii String Sorting.Sorted.
From stdpp Require Import gmap strings list.

(* ================================================================== *)
(** * Part I: the model                                               *)
(* ================================================================== *)

(** ** Numbers *)

Definition Qltb (a b : Q) : bool := negb (Qle_bool b a).

(** [round(x)] on a float, no [ndigits]: nearest integer, a tie goes to
    the even neighbour. *)
Definition py_round (x : Q) : Z :=
  let f := Qfloor x in
  match (x - inject_Z f ?= 1 # 2)%Q with
  | Lt => f
  | Gt => (f + 1)%Z
  | Eq => if Z.even f then f else (f + 1)%Z
  end.

(** The exact value [sqrt radicand]. *)
Record root : Type := Root { radicand : Q }.

Definition root_val (r : root) : R := sqrt (Q2R (radicand r)).

Definition root_ltb (a b : root) : bool := Qltb (radicand a) (radicand b).
Definition root_leb (a b : root) : bool := Qle_bool (radicand a) (radicand b).

(** [d <= x] for a square root [d] and a float [x]. *)
Definition root_le_Q (d : root) (x : Q) : bool :=
  Qle_bool 0 x && Qle_bool (radicand d) (x * x).

(** [round(sqrt t)] for [0 <= t]. *)
Definition round_sqrt (t : Q) : Z :=
  let n := Z.sqrt (Qfloor t) in
  let h := (inject_Z n + (1 # 2))%Q in
  match (t ?= h * h)%Q with
  | Lt => n
  | Gt => (n + 1)%Z
  | Eq => if Z.even n then n else (n + 1)%Z
  end.

(** ** src/utils.py *)

Definition point : Type := Q * Q.

Definition hypot (x y : Q) : root := Root (x * x + y * y).

(** [distance(a, b) = math.hypot(a[0]-b[0], a[1]-b[1])] *)
Definition distance (a b : point) : root := hypot (a.1 - b.1) (a.2 - b.2).

(** [math.dist(p, q)] on two pairs. *)
Definition math_dist (p q : point) : root :=
  Root ((p.1 - q.1) * (p.1 - q.1) + (p.2 - q.2) * (p.2 - q.2)).

Definition step_length_default : Q := 3 # 4.

(** [meters_to_steps(meters, step_length_m)]:
    [max(1, int(round(meters / step_length_m)))]; dividing by zero raises. *)
Definition meters_to_steps (meters step_length_m : Q) : option Z :=
  if Qeq_bool step_length_m 0 then None
  else Some (Z.max 1 (py_round (meters / step_length_m))).

(** The same function on an argument that is a distance. *)
Definition meters_to_steps_root (meters : root) (step_length_m : Q) : option Z :=
  if Qeq_bool step_length_m 0 then None
  else
    let n := round_sqrt (radicand meters / (step_length_m * step_length_m)) in
    Some (Z.max 1 (if Qle_bool 0 step_length_m then n else (- n)%Z)).

(** [math.degrees(math.atan2(ang_y, ang_x))], kept as the vector. *)
Record angle : Type := Atan2 { ang_y : Q; ang_x : Q }.

(** The comparisons of an angle with the four diagonals that the program
    makes: [angle > 45], [angle > 135], [angle < -45], [angle < -135]. *)
Definition angle_gt_45 (a : angle) : bool :=
  Qle_bool 0 (ang_y a) && Qltb (ang_x a) (ang_y a).
Definition angle_gt_135 (a : angle) : bool :=
  Qle_bool 0 (ang_y a) && Qltb (ang_x a) (- ang_y a).
Definition angle_lt_m45 (a : angle) : bool :=
  Qltb (ang_y a) 0 && Qltb (ang_x a) (- ang_y a).
Definition angle_lt_m135 (a : angle) : bool :=
  Qltb (ang_y a) 0 && Qltb (ang_x a) (ang_y a).

(** The labels of [direction_from_vector]:
    'em frente', 'direita', 'frente', 'esquerda', 'tras'. *)
Inductive direction : Type := EmFrente | Direita | Frente | Esquerda | Tras.

Definition near_zero_threshold : Q := 3 # 10.

Definition direction_from_vector (dx dy : Q) : direction :=
  if Qltb (Qabs dx) near_zero_threshold && Qltb (Qabs dy) near_zero_threshold
  then EmFrente
  else
    let angle := Atan2 dy dx in
    if negb (angle_lt_m45 angle) && negb (angle_gt_45 angle) then Direita
    else if angle_gt_45 angle && negb (angle_gt_135 angle) then Frente
    else if angle_gt_135 angle || angle_lt_m135 angle then Esquerda
    else Tras.

(** The real numbers behind [angle]: the two-argument arctangent, with
    values in (-pi, pi], and the conversion to degrees. *)
Definition atan2 (y x : R) : R :=
  if Rlt_dec 0 x then atan (y / x)
  else if Rlt_dec x 0 then
    if Rle_dec 0 y then (atan (y / x) + PI)%R else (atan (y / x) - PI)%R
  else if Rlt_dec 0 y then (PI / 2)%R
  else if Rlt_dec y 0 then (- (PI / 2))%R
  else 0%R.

Definition degrees (a : R) : R := (a * 180 / PI)%R.

Definition angle_val (a : angle) : R :=
  degrees (atan2 (Q2R (ang_y a)) (Q2R (ang_x a))).

(** ** Strings *)

(** [str.isspace] on one code point below 256. *)
Definition is_space (c : ascii) : bool :=
  let n := N_of_ascii c in
  ((9 <=? n) && (n <=? 13) || (28 <=? n) && (n <=? 32)
   || (n =? 133) || (n =? 160))%N.

Definition is_upper (c : ascii) : bool :=
  let n := N_of_ascii c in
  ((65 <=? n) && (n <=? 90)
   || (192 <=? n) && (n <=? 222) && negb (n =? 215))%N.

Definition lower_char (c : ascii) : ascii :=
  if is_upper c then ascii_of_N (N_of_ascii c + 32) else c.

(** [s.lower()] *)
Fixpoint lower (s : string) : string :=
  match s with
  | EmptyString => EmptyString
  | String c s' => String (lower_char c) (lower s')
  end.

Fixpoint lstrip (s : string) : string :=
  match s with
  | EmptyString => EmptyString
  | String c s' => if is_space c then lstrip s' else s
  end.

Fixpoint rstrip (s : string) : string :=
  match s with
  | EmptyString => EmptyString
  | String c s' =>
      match rstrip s' with
      | EmptyString => if is_space c then EmptyString else String c EmptyString
      | t => String c t
      end
  end.

(** [s.strip()] *)
Definition strip (s : string) : string := lstrip (rstrip s).

(** [s.replace(",", " ")] *)
Fixpoint replace_comma (s : string) : string :=
  match s with
  | EmptyString => EmptyString
  | String c s' =>
      String (if Ascii.eqb c "," then " "%char else c) (replace_comma s')
  end.

(** [s.split()]: the maximal runs of non-space characters. *)
Fixpoint split (s : string) : list string :=
  match s with
  | EmptyString => []
  | String c s' =>
      if is_space c then split s'
      else
        match s' with
        | EmptyString => [String c EmptyString]
        | String c' _ =>
            if is_space c' then String c EmptyString :: split s'
            else
              match split s' with
              | t :: ts => String c t :: ts
              | [] => [String c EmptyString]
              end
        end
  end.

(** [t.startswith(s)] *)
Fixpoint starts_with (s t : string) : bool :=
  match s with
  | EmptyString => true
  | String a s' =>
      match t with
      | EmptyString => false
      | String b t' => Ascii.eqb a b && starts_with s' t'
      end
  end.

(** [s in t] on strings: [s] occurs in [t] at some position. *)
Fixpoint str_in (s t : string) : bool :=
  starts_with s t
  || match t with
     | EmptyString => false
     | String _ t' => str_in s t'
     end.

Definition is_empty_str (s : string) : bool :=
  match s with EmptyString => true | _ => false end.

(** ** Responses and files *)

(** One constructor per error message of the tools. *)
Inductive erro : Type :=
  | ListaVazia          (* "Por favor indica pelo menos um produto ..." *)
  | SemLista            (* "Nao existe nenhuma lista de compras guardada." *)
  | SemLocalizacoes     (* "O ficheiro '...' nao foi encontrado." *)
  | SemCoordenadas      (* "Nenhum produto com coordenadas encontrado." *)
  | NenhumDaLista.      (* "Nenhum produto da tua lista foi encontrado ..." *)

Inductive resposta (A : Type) : Type :=
  | Erro (e : erro)
  | Sucesso (a : A).
Arguments Erro {A} e.
Arguments Sucesso {A} a.

(** An entry of TestDataProductsLocation.json. *)
Record Localizacao : Type := mkLocalizacao {
  nome_produto : string;
  corredor : string;
  seccao : string;
  prateleira : string;
  caixa : string;
  coordenada_x : Q;
  coordenada_y : Q
}.

Record Ficheiros : Type := mkFicheiros {
  ficheiro_lista : option (list string);
  ficheiro_localizacoes : option (list Localizacao)
}.

(** ** guardar_lista_compras *)

Definition parse_itens (itens : string) : list string :=
  map (fun item => lower (strip item))
      (List.filter (fun item => negb (is_empty_str (strip item)))
                   (split (replace_comma itens))).

Definition guardar_lista_compras (itens : string) (fs : Ficheiros)
  : resposta (list string) * Ficheiros :=
  if is_empty_str (strip itens) then (Erro ListaVazia, fs)
  else
    let lista_itens := parse_itens itens in
    (Sucesso lista_itens,
     {| ficheiro_lista := Some lista_itens;
        ficheiro_localizacoes := ficheiro_localizacoes fs |}).

(** ** obter_localizacoes_lista *)

(** An element of [resultados]: the located product (the dictionary with the
    keys produto, corredor, ..., coordenada_y) or the dictionary with the
    keys produto and erro. *)
Record Local : Type := mkLocal {
  produto : string;
  l_corredor : string;
  l_seccao : string;
  l_prateleira : string;
  l_caixa : string;
  l_coordenada_x : Q;
  l_coordenada_y : Q
}.

Inductive Resultado : Type :=
  | Encontrado (l : Local)
  | NaoEncontrado (produto_pedido : string).

Definition local_de (p : Localizacao) : Local :=
  {| produto := nome_produto p;
     l_corredor := corredor p;
     l_seccao := seccao p;
     l_prateleira := prateleira p;
     l_caixa := caixa p;
     l_coordenada_x := coordenada_x p;
     l_coordenada_y := coordenada_y p |}.

(** [[p for p in produtos if item.lower() in p["nome_produto"].lower()]] *)
Definition correspondencias (item : string) (produtos : list Localizacao)
  : list Localizacao :=
  List.filter (fun p => str_in (lower item) (lower (nome_produto p))) produtos.

Definition resultados_item (produtos : list Localizacao) (item : string)
  : list Resultado :=
  match correspondencias item produtos with
  | [] => [NaoEncontrado item]
  | ps => map (fun p => Encontrado (local_de p)) ps
  end.

Definition resultados_lista (lista_itens : list string)
    (produtos : list Localizacao) : list Resultado :=
  flat_map (resultados_item produtos) lista_itens.

Definition obter_localizacoes_lista (fs : Ficheiros)
  : resposta (list Resultado) :=
  match ficheiro_lista fs with
  | None => Erro SemLista
  | Some lista_itens =>
      match ficheiro_localizacoes fs with
      | None => Erro SemLocalizacoes
      | Some produtos => Sucesso (resultados_lista lista_itens produtos)
      end
  end.

(** ** The nearest-neighbour loop

    [gerar_rota_otimizada] (lines 114-138) and [mostrar_rota_visual]
    (lines 180-199) run the same loop, the first on the located products
    (visited set keyed by "produto"), the second on catalogue entries
    (keyed by "nome_produto"). *)

Section NearestNeighbor.
Context {A : Type} (nome : A -> string) (pos : A -> point).

(** [min(l, key=key)]: the first element with the least key. *)
Fixpoint min_from (key : A -> root) (best : A) (l : list A) : A :=
  match l with
  | [] => best
  | x :: l' =>
      min_from key (if root_ltb (key x) (key best) then x else best) l'
  end.

Definition py_min (key : A -> root) (l : list A) : option A :=
  match l with
  | [] => None
  | x :: l' => Some (min_from key x l')
  end.

Record nn_state : Type := mkNN {
  rota : list A;
  visitados : gset string;
  atual : A
}.

Definition nao_visitados (produtos : list A) (vis : gset string) : list A :=
  List.filter (fun p => bool_decide (nome p ∉ vis)) produtos.

(** The [while] loop; [None] when the fuel runs out. *)
Fixpoint nn_loop (fuel : nat) (produtos : list A) (st : nn_state)
  : option nn_state :=
  if bool_decide (size (visitados st) < length produtos)%nat then
    match fuel with
    | O => None
    | S fuel' =>
        let proximos := nao_visitados produtos (visitados st) in
        match py_min (fun p => math_dist (pos (atual st)) (pos p)) proximos with
        | None => Some st
        | Some proximo =>
            nn_loop fuel' produtos
              {| rota := rota st ++ [proximo];
                 visitados := visitados st ∪ {[ nome proximo ]};
                 atual := proximo |}
        end
    end
  else Some st.

(** The route from a non-empty list [primeiro :: resto]. *)
Definition rota_vizinho (primeiro : A) (resto : list A) : option (list A) :=
  let produtos := primeiro :: resto in
  st ← nn_loop (length produtos) produtos
         {| rota := [primeiro];
            visitados := {[ nome primeiro ]};
            atual := primeiro |};
  Some (rota st).
End NearestNeighbor.

Arguments mkNN {A} _ _ _.
Arguments rota {A} _.
Arguments visitados {A} _.
Arguments atual {A} _.

Definition pos_local (l : Local) : point := (l_coordenada_x l, l_coordenada_y l).
Definition pos_localizacao (p : Localizacao) : point :=
  (coordenada_x p, coordenada_y p).

(** ** gerar_rota_otimizada *)

Definition com_coordenadas (resultados : list Resultado) : list Local :=
  flat_map (fun r => match r with
                     | Encontrado l => [l]
                     | NaoEncontrado _ => []
                     end) resultados.

Definition gerar_rota_de (resultados : list Resultado)
  : option (resposta (list Local)) :=
  match com_coordenadas resultados with
  | [] => Some (Erro SemCoordenadas)
  | primeiro :: resto =>
      r ← rota_vizinho produto pos_local primeiro resto;
      Some (Sucesso r)
  end.

Definition gerar_rota_otimizada (fs : Ficheiros)
  : option (resposta (list Local)) :=
  match obter_localizacoes_lista fs with
  | Erro e => Some (Erro e)
  | Sucesso resultados => gerar_rota_de resultados
  end.

(** ** mostrar_rota_visual *)

(** 'siga em frente', 'vire a esquerda', 'vire a direita',
    'inverta a direcao'. *)
Inductive direcao : Type :=
  SigaEmFrente | VireEsquerda | VireDireita | InvertaDirecao.

(** The classification of lines 208-216. *)
Definition direcao_de (dx dy : Q) : direcao :=
  let angulo := Atan2 dy dx in
  if negb (angle_lt_m45 angulo) && negb (angle_gt_45 angulo) then SigaEmFrente
  else if angle_gt_45 angulo && negb (angle_gt_135 angulo) then VireEsquerda
  else if negb (angle_lt_m135 angulo) && angle_lt_m45 angulo then VireDireita
  else InvertaDirecao.

(** One instruction: the label, the length of the leg and the name of the
    product reached. *)
Record instrucao : Type := mkInstrucao {
  i_direcao : direcao;
  i_distancia : root;
  i_destino : string
}.

Fixpoint instrucoes_de (r : list Localizacao) : list instrucao :=
  match r with
  | p1 :: ((p2 :: _) as r') =>
      let dx := (coordenada_x p2 - coordenada_x p1)%Q in
      let dy := (coordenada_y p2 - coordenada_y p1)%Q in
      {| i_direcao := direcao_de dx dy;
         i_distancia := Root (dx * dx + dy * dy);
         i_destino := nome_produto p2 |} :: instrucoes_de r'
  | _ => []
  end.

Definition selecionados (lista_itens : list string)
    (produtos : list Localizacao) : list Localizacao :=
  List.filter
    (fun p => existsb (fun item => str_in item (lower (nome_produto p)))
                      lista_itens)
    produtos.

Definition mostrar_rota_visual (fs : Ficheiros)
  : option (resposta (list instrucao * list Localizacao)) :=
  match ficheiro_lista fs with
  | None => Some (Erro SemLista)
  | Some itens =>
      match ficheiro_localizacoes fs with
      | None => Some (Erro SemLocalizacoes)
      | Some produtos =>
          let lista_itens := map (fun i => strip (lower i)) itens in
          match selecionados lista_itens produtos with
          | [] => Some (Erro NenhumDaLista)
          | primeiro :: resto =>
              r ← rota_vizinho nome_produto pos_localizacao primeiro resto;
              Some (Sucesso (instrucoes_de r, r))
          end
      end
  end.

(** ** src/sensors.py *)

Record Product : Type := mkProduct {
  uid : string;
  name : string;
  position : point;
  shelf_level : Z
}.

(** [StoreMap.products]: a dictionary, in insertion order. *)
Definition StoreMap : Type := list (string * Product).

Fixpoint dict_set (k : string) (v : Product) (d : StoreMap) : StoreMap :=
  match d with
  | [] => [(k, v)]
  | (k', v') :: d' =>
      if String.eqb k' k then (k, v) :: d' else (k', v') :: dict_set k v d'
  end.

Definition add_product (sm : StoreMap) (u n : string) (p : point) (lvl : Z)
  : StoreMap :=
  dict_set u (mkProduct u n p lvl) sm.

Definition find_by_name (sm : StoreMap) (n : string) : option Product :=
  List.find (fun p => String.eqb (lower (name p)) (lower n)) (map snd sm).

Record RFIDReader : Type := mkRFIDReader {
  store_map : StoreMap;
  range : Q;
  noise_prob : Q
}.

(** [random.random()]: the generator is the sequence of its draws and the
    number of draws already made. *)
Fixpoint scan_items (rng : nat -> Q) (range_m noise : Q) (position_ : point)
    (items : StoreMap) (k : nat) : list (string * root) * nat :=
  match items with
  | [] => ([], k)
  | (u, p) :: rest =>
      let d := distance position_ (position p) in
      if root_le_Q d range_m then
        let '(found, k') := scan_items rng range_m noise position_ rest (S k) in
        if Qltb noise (rng k) then ((u, d) :: found, k') else (found, k')
      else scan_items rng range_m noise position_ rest k
  end.

Definition scan (r : RFIDReader) (position_ : point) (rng : nat -> Q) (k : nat)
  : list (string * root) * nat :=
  scan_items rng (range r) (noise_prob r) position_ (store_map r) k.

Record ZebraDevice : Type := mkZebra { sensitivity : Q }.

Definition sweep (z : ZebraDevice) (product : Product) (device_pos : point)
    (device_height : Z) : bool :=
  let d := distance (position product) device_pos in
  if root_le_Q d (sensitivity z) && Z.eqb (shelf_level product) device_height
  then true else false.

(** ** src/agent.py *)

(** [l.sort(key=key)]: the stable sort. *)
Fixpoint insert_by {A : Type} (key : A -> root) (x : A) (l : list A) : list A :=
  match l with
  | [] => [x]
  | y :: l' =>
      if root_leb (key x) (key y) then x :: l else y :: insert_by key x l'
  end.

Definition sort_by {A : Type} (key : A -> root) (l : list A) : list A :=
  foldr (insert_by key) [] l.

(** The first loop of [plan_route]: the products found, and the items that
    are not found, for each of which [print] receives one warning. *)
Fixpoint procurar (sm : StoreMap) (items : list string)
  : list Product * list string :=
  match items with
  | [] => ([], [])
  | it :: rest =>
      let '(found, avisos) := procurar sm rest in
      match find_by_name sm it with
      | Some p => (p :: found, avisos)
      | None => (found, it :: avisos)
      end
  end.

(** The second loop: each product with the steps from the previous stop. *)
Fixpoint com_passos (prev : point) (found : list Product)
  : option (list (Product * Z)) :=
  match found with
  | [] => Some []
  | p :: rest =>
      s ← meters_to_steps_root (distance prev (position p)) step_length_default;
      r ← com_passos (position p) rest;
      Some ((p, s) :: r)
  end.

Definition plan_route (sm : StoreMap) (current_pos : point) (items : list string)
  : option (list (Product * Z)) * list string :=
  let '(found, avisos) := procurar sm items in
  let found := sort_by (fun p => distance current_pos (position p)) found in
  (com_passos current_pos found, avisos).

(** ** carregar_lista_compras *)

(** The response of [carregar_lista_compras]: the error "Ainda nao tens
    nenhuma lista de compras guardada." or the saved items. *)
Inductive resposta_carregar : Type :=
  | AindaSemLista
  | ListaCarregada (itens : list string).

Definition carregar_lista_compras (fs : Ficheiros) : resposta_carregar :=
  match ficheiro_lista fs with
  | None => AindaSemLista
  | Some itens => ListaCarregada itens
  end.

(** [sep.join(l)] *)
Fixpoint join (sep : string) (l : list string) : string :=
  match l with
  | [] => EmptyString
  | [x] => x
  | x :: l' => String.append x (String.append sep (join sep l'))
  end.

(** ** The rest of src/sensors.py *)

(** [StoreMap.nearest_product_tag(estimated_pos, radius)] *)
Definition nearest_product_tag (sm : StoreMap) (estimated_pos : point)
    (radius : Q) : list (Product * root) :=
  let res :=
    flat_map (fun p =>
                let d := distance estimated_pos (position p) in
                if root_le_Q d radius then [(p, d)] else [])
             (map snd sm) in
  sort_by snd res.

Record Cart : Type := mkCart {
  cart_id : string;
  contents : list string
}.

Definition new_cart (id : string) : Cart := mkCart id [].

Definition cart_add (c : Cart) (u : string) : Cart :=
  mkCart (cart_id c) (contents c ++ [u]).

(** [uid in self.contents] *)
Definition cart_has (c : Cart) (u : string) : bool :=
  existsb (String.eqb u) (contents c).

(** ** The rest of src/agent.py *)

(** [text.replace(' e ', ',')]: the occurrences from the left, without
    overlap. *)
Fixpoint replace_e (s : string) : string :=
  match s with
  | EmptyString => EmptyString
  | String c s' =>
      match s' with
      | String c1 (String c2 rest) =>
          if Ascii.eqb c " " && Ascii.eqb c1 "e" && Ascii.eqb c2 " "
          then String "," (replace_e rest)
          else String c (replace_e s')
      | _ => String c (replace_e s')
      end
  end.

(** [s.split(sep)] for a one-character separator: empty pieces are kept. *)
Fixpoint split_on (sep : ascii) (s : string) : list string :=
  match s with
  | EmptyString => [EmptyString]
  | String c s' =>
      if Ascii.eqb c sep then EmptyString :: split_on sep s'
      else
        match split_on sep s' with
        | t :: ts => String c t :: ts
        | [] => [String c EmptyString]
        end
  end.

Definition parse_shopping_list (text : string) : list string :=
  List.filter (fun s => negb (is_empty_str s))
              (map strip (split_on "," (replace_e text))).

Definition give_directions (from_pos : point) (to_product : Product)
  : option (Z * direction) :=
  let dx := ((position to_product).1 - from_pos.1)%Q in
  let dy := ((position to_product).2 - from_pos.2)%Q in
  steps ← meters_to_steps_root (distance from_pos (position to_product))
                               step_length_default;
  Some (steps, direction_from_vector dx dy).

(** ** src/main.py *)

Definition build_demo_store : StoreMap :=
  add_product
    (add_product
       (add_product (add_product [] "tag001" "leite" (2, 1)%Q 1)
                    "tag002" "ovos" (11 # 2, 6 # 5)%Q 0)
       "tag003" "cafe" (3, 4)%Q 2)
    "tag004" "acucar" (6, 7 # 2)%Q 1.

(** What [voice.speak] receives, one constructor per message with the
    values it prints; the wording is left out. *)
Inductive fala : Type :=
  | BemVindo
  | ListaRecebida (items : list string)
  | Ande (steps : Z) (d : direction) (nome : string)
  | PasseZebra (nivel : Z) (nome : string)
  | Confirmado
  | Adicionado (nome : string) (n_itens : nat)
  | NadaConfirmado
  | RotaTerminada.

(** The [for] loop of [run_session]: the position, the cart and what was
    spoken so far are carried along the route. *)
Fixpoint percorrer (zebra : ZebraDevice) (route : list (Product * Z))
    (pos : point) (cart : Cart) : option (list fala * point * Cart) :=
  match route with
  | [] => Some ([], pos, cart)
  | (p, _) :: rest =>
      '(steps_calc, dir) ← give_directions pos p;
      let pos := position p in
      let found := sweep zebra p pos (shelf_level p) in
      let cart' := if found then cart_add cart (uid p) else cart in
      let ditas :=
        if found
        then [Confirmado; Adicionado (name p) (length (contents cart'))]
        else [NadaConfirmado] in
      '(falas, pos', cart'') ← percorrer zebra rest pos cart';
      Some (Ande steps_calc dir (name p) :: PasseZebra (shelf_level p) (name p)
              :: ditas ++ falas, pos', cart'')
  end.

(** [run_session], with the text that [voice.listen] returns as input and
    what is spoken and the cart as output. *)
Definition run_session (text : string) : option (list fala * Cart) :=
  let store := build_demo_store in
  let zebra := mkZebra (6 # 10) in
  let cart := new_cart "carrinho-001" in
  let pos : point := (0, 0)%Q in
  let items := parse_shopping_list text in
  route ← fst (plan_route store pos items);
  '(falas, _, cart') ← percorrer zebra route pos cart;
  Some (BemVindo :: ListaRecebida items :: falas ++ [RotaTerminada], cart').

(** ** Example data *)

Definition sem_ficheiros : Ficheiros :=
  {| ficheiro_lista := None; ficheiro_localizacoes := None |}.

Definition loc (n : string) (x y : Q) : Localizacao :=
  mkLocalizacao n "1" "A" "2" "3" x y.

Definition catalogo_leite : list Localizacao :=
  [loc "Leite Magro" 2 1; loc "Cafe" 3 4; loc "leite de soja" 6 1].

(** The demonstration store of [build_demo_store]. *)
Definition demo_store : StoreMap :=
  add_product
    (add_product
       (add_product (add_product [] "tag001" "leite" (2, 1)%Q 1)
                    "tag002" "ovos" (11 # 2, 6 # 5)%Q 0)
       "tag003" "cafe" (3, 4)%Q 2)
    "tag004" "acucar" (6, 7 # 2)%Q 1.

(** A store with a two-word name, registered twice with different
    letter case. *)
Definition leite_magro : Product :=
  mkProduct "tag001" "leite magro" (2, 1)%Q 1.

Definition store_leite : StoreMap :=
  add_product
    (add_product [] "tag001" "leite magro" (2, 1)%Q 1)
    "tag002" "Leite Magro" (4, 1)%Q 0.

Definition origem : point := (0, 0)%Q.

(** Two located products, the farther one first in the list. *)
Definition local_longe : Local := mkLocal "arroz" "1" "A" "2" "3" 10 0.
Definition local_perto : Local := mkLocal "sal" "1" "A" "2" "3" 1 0.

Definition resultados_longe_perto : list Resultado :=
  [Encontrado local_longe; NaoEncontrado "xyz"; Encontrado local_perto].

(** Three products on a line through the starting position (0, 0). *)
Definition store_linha : StoreMap :=
  add_product
    (add_product
       (add_product [] "a" "um" (1, 0)%Q 0)
       "b" "dois" (-2, 0)%Q 0)
    "c" "tres" (3, 0)%Q 0.

Definition prod_um : Product := mkProduct "a" "um" (1, 0)%Q 0.
Definition prod_dois : Product := mkProduct "b" "dois" (-2, 0)%Q 0.
Definition prod_tres : Product := mkProduct "c" "tres" (3, 0)%Q 0.

(** A reader over the line store: the farthest product was registered
    first. *)
Definition store_desordenado : StoreMap :=
  add_product (add_product [] "c" "tres" (3, 0)%Q 0) "a" "um" (1, 0)%Q 0.

Definition leitor_sem_ruido : RFIDReader :=
  {| store_map := store_desordenado; range := 10; noise_prob := 0 |}.

Definition ficheiros_leite : Ficheiros :=
  {| ficheiro_lista := Some ["soja"; "pao"; "cafe"]%string;
     ficheiro_localizacoes := Some catalogo_leite |}.

Definition leitor_so_ruido : RFIDReader :=
  {| store_map := store_desordenado; range := 10; noise_prob := 1 |}.

(** Two sequences of draws of [random.random()], which lie in [0, 1). *)
Definition sorteio_meio : nat -> Q := fun _ => (1 # 2)%Q.
Definition sorteio_zero : nat -> Q := fun _ => 0%Q.

(** Two located products with one name. *)
Definition local_leite_a : Local := mkLocal "leite" "1" "A" "2" "3" 0 0.
Definition local_leite_b : Local := mkLocal "leite" "4" "B" "1" "7" 5 5.

(** The items before and after one that is in neither catalogue. *)
Definition itens_antes : list string := ["cafe"]%string.
Definition itens_depois : list string := ["leite"]%string.

(** A saved list none of whose items is in the catalogue. *)
Definition ficheiros_sem_match : Ficheiros :=
  {| ficheiro_lista := Some ["xyz"]%string;
     ficheiro_localizacoes := Some catalogo_leite |}.

(** ** Reference notions used by the statements *)

(** The Euclidean distance between two points, as a real number. *)
Definition euclid (a b : point) : R :=
  sqrt ((Q2R a.1 - Q2R b.1) * (Q2R a.1 - Q2R b.1)
        + (Q2R a.2 - Q2R b.2) * (Q2R a.2 - Q2R b.2)).

(** [x] is the first element of [l] that passes the test [f]. *)
Definition first_such {A : Type} (f : A -> bool) (l : list A) (x : A) : Prop :=
  exists l1 l2 : list A,
    l = l1 ++ x :: l2 /\ f x = true /\ forall y, In y l1 -> f y = false.

(** [q] is the first element of [l] with the least key. *)
Definition first_min {A : Type} (key : A -> root) (l : list A) (q : A) : Prop :=
  exists l1 l2 : list A,
    l = l1 ++ q :: l2 /\
    (forall u, In u l1 -> root_ltb (key q) (key u) = true) /\
    (forall u, In u l2 -> root_leb (key q) (key u) = true).

(** [q] is the element of [l] nearest to the point [from], and the first
    such element of [l]: what comes before it is strictly farther, what
    comes after it is not nearer. *)
Definition first_nearest {A : Type} (pos : A -> point) (from : point)
    (l : list A) (q : A) : Prop :=
  exists l1 l2 : list A,
    l = l1 ++ q :: l2 /\
    (forall u, In u l1 -> (euclid from (pos q) < euclid from (pos u))%R) /\
    (forall u, In u l2 -> (euclid from (pos q) <= euclid from (pos u))%R).

(** The names of the stops of a route, as the visited set holds them. *)
Definition nomes_de {A : Type} (nome : A -> string) (r : list A) : gset string :=
  list_to_set (map nome r).

(** Every stop after the first is the first nearest product, from the stop
    before it, among the products whose name is not yet on the route. *)
Definition nn_chain {A : Type} (nome : A -> string) (pos : A -> point)
    (produtos r : list A) : Prop :=
  forall (i : nat) (p q : A),
    r !! i = Some p -> r !! S i = Some q ->
    first_nearest pos (pos p)
      (nao_visitados nome produtos (nomes_de nome (take (S i) r))) q.

(** The loop invariant of the nearest-neighbour loop. *)
Definition nn_inv {A : Type} (nome : A -> string) (pos : A -> point)
    (produtos : list A) (primeiro : A) (st : nn_state (A := A)) : Prop :=
  last (rota st) = Some (atual st) /\
  visitados st = nomes_de nome (rota st) /\
  NoDup (map nome (rota st)) /\
  (forall p, In p (rota st) -> In p produtos) /\
  head (rota st) = Some primeiro /\
  nn_chain nome pos produtos (rota st).

(** The six cases of [atan2 y x]. *)
Inductive atan2_case (y x : R) : R -> Prop :=
  | At2_right t : (0 < x)%R -> y = (t * x)%R -> atan2_case y x (atan t)
  | At2_upper_left t :
      (x < 0)%R -> (0 <= y)%R -> y = (t * x)%R ->
      atan2_case y x (atan t + PI)%R
  | At2_lower_left t :
      (x < 0)%R -> (y < 0)%R -> y = (t * x)%R ->
      atan2_case y x (atan t - PI)%R
  | At2_up : x = 0%R -> (0 < y)%R -> atan2_case y x (PI / 2)%R
  | At2_down : x = 0%R -> (y < 0)%R -> atan2_case y x (- (PI / 2))%R
  | At2_origin : x = 0%R -> y = 0%R -> atan2_case y x 0%R.

(** The state after one more stop. *)
Definition passo {A : Type} (nome : A -> string) (st : nn_state (A := A))
    (proximo : A) : nn_state (A := A) :=
  {| rota := rota st ++ [proximo];
     visitados := visitados st ∪ {[ nome proximo ]};
     atual := proximo |}.

(** The two ways out of the loop. *)
Definition nn_exit {A : Type} (nome : A -> string) (produtos : list A)
    (st : nn_state (A := A)) : Prop :=
  (length produtos <= size (visitados st))%nat \/
  nao_visitados nome produtos (visitados st) = [].

(** What a route [r] over [produtos] satisfies: no name twice, only
    products of the input, every name of the input, and so no more stops
    than products. *)
Definition cobre {A : Type} (nome : A -> string) (produtos r : list A) : Prop :=
  NoDup (map nome r) /\
  (forall p, In p r -> In p produtos) /\
  (forall p, In p produtos -> In (nome p) (map nome r)) /\
  (length r <= length produtos)%nat.

(** The route sequencer as section 4.4 of the specification words it, for
    comparison with the code: the greedy nearest-neighbour order from a
    starting position.  The current
    position starts at [start] and nothing is visited; the unvisited
    product nearest to the current position, the first one on a tie, is
    appended and becomes the current position. *)
Fixpoint take_first_min {A : Type} (key : A -> root) (l : list A)
  : option (A * list A) :=
  match l with
  | [] => None
  | x :: l' =>
      match take_first_min key l' with
      | Some (m, rest) =>
          if root_ltb (key m) (key x) then Some (m, x :: rest) else Some (x, l')
      | None => Some (x, [])
      end
  end.

Fixpoint greedy_from {A : Type} (pos : A -> point) (fuel : nat)
    (current : point) (unvisited : list A) : list A :=
  match fuel with
  | O => []
  | S fuel' =>
      match take_first_min (fun u => math_dist current (pos u)) unvisited with
      | None => []
      | Some (q, rest) => q :: greedy_from pos fuel' (pos q) rest
      end
  end.

Definition sequencer_spec {A : Type} (pos : A -> point) (start : point)
    (products : list A) : list A :=
  greedy_from pos (length products) start products.

(** The entry of a scan for one item of the catalogue. *)
Definition entry_of (position_ : point) (up : string * Product)
  : string * root :=
  (up.1, distance position_ (position up.2)).

(** A scan result lists its entries closest first. *)
Definition closest_first (found : list (string * root)) : Prop :=
  StronglySorted (fun a b => (root_val a.2 <= root_val b.2)%R) found.

(** The stops are in the order of their distance from [start]. *)
Definition by_distance_from (start : point) (r : list Product) : Prop :=
  StronglySorted
    (fun a b => (euclid start (position a) <= euclid start (position b))%R) r.

(** [n] is an integer nearest to [x], and the even one when [x] lies half
    way between two integers. *)
Definition nearest_even (x : Q) (n : Z) : Prop :=
  (Qabs (x - inject_Z n) <= 1 # 2)%Q /\
  ((Qabs (x - inject_Z n) == 1 # 2)%Q -> Z.even n = true).

(** A token as the saved list holds them: not empty, no white space, no
    comma. *)
Definition clean_token (t : string) : Prop :=
  t <> EmptyString /\
  forall c, In c (list_ascii_of_string t) ->
    is_space c = false /\ c <> ","%char.

(** Only separators of the list text: white space and commas. *)
Definition only_separators (s : string) : Prop :=
  forall c, In c (list_ascii_of_string s) ->
    is_space c = true \/ c = ","%char.

(** The name [nome] contains the text [item], letter case ignored. *)
Definition contem (item nome : string) : Prop :=
  exists pre post : string,
    lower nome = String.append pre (String.append (lower item) post).

(** The labels of the two direction classifiers that stand for the same
    sector. *)
Definition mesma_direcao (d : direction) (d' : direcao) : Prop :=
  match d, d' with
  | Direita, SigaEmFrente => True
  | Frente, VireEsquerda => True
  | Tras, VireDireita => True
  | Esquerda, InvertaDirecao => True
  | _, _ => False
  end.

(** A store as [add_product] keeps it: one entry per identifier, and each
    entry holds the product with that identifier. *)
Definition store_ok (sm : StoreMap) : Prop :=
  NoDup (map fst sm) /\ forall k p, In (k, p) sm -> uid p = k.

(** A list of pairs (product, distance) in the order of the distances. *)
Definition ascending {A : Type} (l : list (A * root)) : Prop :=
  StronglySorted (fun a b => (root_val a.2 <= root_val b.2)%R) l.

(** The entries of the catalogue within the range of a scan, in the order
    of the catalogue. *)
Definition em_alcance (range_m : Q) (position_ : point) (sm : StoreMap)
  : StoreMap :=
  List.filter
    (fun up => root_le_Q (distance position_ (position up.2)) range_m) sm.

(** The key of [a] is [sqrt d]. *)
Definition has_key {A : Type} (key : A -> root) (d : Q) (a : A) : bool :=
  Qeq_bool (radicand (key a)) d.

(** The products at the distance [sqrt d] from [start]. *)
Definition a_distancia (start : point) (d : Q) (l : list Product)
  : list Product :=
  List.filter
    (fun p => Qeq_bool (radicand (distance start (position p))) d) l.

(* ================================================================== *)
(** * Part II: properties                                             *)
(* ================================================================== *)

(** ** Rounding and step counts *)

Section Rounding.
Local Open Scope Q_scope.

Lemma Qltb_lt (a b : Q) : Qltb a b = true <-> a < b.
Proof.
  unfold Qltb. rewrite negb_true_iff.
  destruct (Qle_bool b a) eqn:E.
  - apply Qle_bool_iff in E. split; [discriminate | intros H; lra].
  - split; [intros _ | reflexivity].
    destruct (Qlt_le_dec a b) as [H | H]; [exact H |].
    apply Qle_bool_iff in H. congruence.
Qed.

Lemma Qltb_ge (a b : Q) : Qltb a b = false <-> b <= a.
Proof.
  unfold Qltb. rewrite negb_false_iff. apply Qle_bool_iff.
Qed.

Lemma Qle_bool_gt (a b : Q) : Qle_bool a b = false <-> b < a.
Proof.
  rewrite <- Qltb_lt. unfold Qltb.
  destruct (Qle_bool a b); simpl; split; congruence.
Qed.

Lemma floor_bounds (x : Q) :
  inject_Z (Qfloor x) <= x /\ x < inject_Z (Qfloor x) + 1.
Proof.
  split; [apply Qfloor_le |].
  pose proof (Qlt_floor x) as H. rewrite inject_Z_plus in H. exact H.
Qed.

Lemma py_round_floor (x : Q) :
  (Qfloor x <= py_round x <= Qfloor x + 1)%Z.
Proof.
  unfold py_round.
  destruct (x - inject_Z (Qfloor x) ?= 1 # 2); [destruct (Z.even _) | |]; lia.
Qed.

Lemma inject_Z_succ (n : Z) : inject_Z (n + 1) == inject_Z n + 1.
Proof. rewrite inject_Z_plus. reflexivity. Qed.

Lemma py_round_nearest (x : Q) : nearest_even x (py_round x).
Proof.
  destruct (floor_bounds x) as [Hlo Hhi].
  unfold nearest_even, py_round.
  destruct (Qcompare_spec (x - inject_Z (Qfloor x)) (1 # 2)) as [E | E | E].
  - destruct (Z.even (Qfloor x)) eqn:Ev.
    + split; [| intros _; exact Ev].
      apply Qabs_Qle_condition. lra.
    + split.
      * apply Qabs_Qle_condition. rewrite inject_Z_succ. lra.
      * intros _. rewrite Z.even_add, Ev. reflexivity.
  - split.
    + apply Qabs_Qle_condition. lra.
    + intros H. rewrite Qabs_pos in H by lra. lra.
  - split.
    + apply Qabs_Qle_condition. rewrite inject_Z_succ. lra.
    + intros H. rewrite Qabs_neg in H by (rewrite inject_Z_succ; lra).
      rewrite inject_Z_succ in H. lra.
Qed.

Lemma py_round_mono (x y : Q) : x <= y -> (py_round x <= py_round y)%Z.
Proof.
  intros Hxy.
  pose proof (Qfloor_resp_le _ _ Hxy) as Hf.
  pose proof (py_round_floor x) as Hx.
  pose proof (py_round_floor y) as Hy.
  destruct (Z.eq_dec (Qfloor x) (Qfloor y)) as [E | NE]; [| lia].
  clear Hx Hy Hf. unfold py_round. rewrite <- E.
  destruct (Qcompare_spec (x - inject_Z (Qfloor x)) (1 # 2)) as [Ex | Ex | Ex];
    destruct (Qcompare_spec (y - inject_Z (Qfloor x)) (1 # 2)) as [Ey | Ey | Ey];
    try (exfalso; lra); try destruct (Z.even (Qfloor x)); lia.
Qed.

Lemma Qdiv_le_pos (a b c : Q) : 0 < c -> a <= b -> a / c <= b / c.
Proof.
  intros Hc Hab. unfold Qdiv.
  apply Qmult_le_compat_r; [exact Hab |].
  apply Qlt_le_weak, Qinv_lt_0_compat, Hc.
Qed.

Lemma Qeq_bool_pos (c : Q) : 0 < c -> Qeq_bool c 0 = false.
Proof.
  intros Hc. destruct (Qeq_bool c 0) eqn:E; [| reflexivity].
  apply Qeq_bool_iff in E. lra.
Qed.
End Rounding.



(** ** Distances as real numbers *)

Section Distances.
Local Open Scope R_scope.

Lemma distance_euclid (a b : point) : root_val (distance a b) = euclid a b.
Proof.
  unfold root_val, distance, hypot, euclid. simpl.
  rewrite Q2R_plus, !Q2R_mult, !Q2R_minus. reflexivity.
Qed.

Lemma math_dist_euclid (a b : point) : root_val (math_dist a b) = euclid a b.
Proof.
  unfold root_val, math_dist, euclid. simpl.
  rewrite Q2R_plus, !Q2R_mult, !Q2R_minus. reflexivity.
Qed.

Lemma math_dist_distance (a b : point) : math_dist a b = distance a b.
Proof. reflexivity. Qed.

Lemma distance_radicand_nonneg (a b : point) :
  0 <= Q2R (radicand (distance a b)).
Proof.
  unfold distance, hypot. simpl.
  rewrite Q2R_plus, !Q2R_mult. nra.
Qed.

Lemma Qle_bool_Rle (a b : Q) : Qle_bool a b = true <-> Q2R a <= Q2R b.
Proof.
  rewrite Qle_bool_iff. split; [apply Qle_Rle | apply Rle_Qle].
Qed.

Lemma Qltb_Rlt (a b : Q) : Qltb a b = true <-> Q2R a < Q2R b.
Proof.
  rewrite Qltb_lt. split; [apply Qlt_Rlt | apply Rlt_Qlt].
Qed.

(** The test [d <= x] decides the inequality between the real numbers. *)
Lemma root_le_Q_spec (d : root) (x : Q) :
  0 <= Q2R (radicand d) ->
  (root_le_Q d x = true <-> root_val d <= Q2R x).
Proof.
  intros Hd. unfold root_le_Q, root_val.
  rewrite andb_true_iff, !Qle_bool_Rle, Q2R_mult.
  replace (Q2R 0) with 0 by lra.
  split.
  - intros [Hx Hle].
    rewrite <- (sqrt_square (Q2R x)) by exact Hx.
    apply sqrt_le_1_alt, Hle.
  - intros Hle.
    pose proof (sqrt_pos (Q2R (radicand d))) as Hpos.
    split; [lra |].
    rewrite <- (sqrt_sqrt (Q2R (radicand d))) by exact Hd.
    nra.
Qed.

(** Comparing two square roots is comparing the radicands. *)
Lemma root_leb_spec (a b : root) :
  0 <= Q2R (radicand a) -> 0 <= Q2R (radicand b) ->
  (root_leb a b = true <-> root_val a <= root_val b).
Proof.
  intros Ha Hb. unfold root_leb, root_val. rewrite Qle_bool_Rle.
  split; [apply sqrt_le_1_alt | apply sqrt_le_0; assumption].
Qed.

Lemma root_ltb_spec (a b : root) :
  0 <= Q2R (radicand a) -> 0 <= Q2R (radicand b) ->
  (root_ltb a b = true <-> root_val a < root_val b).
Proof.
  intros Ha Hb. unfold root_ltb, root_val. rewrite Qltb_Rlt.
  split; [apply sqrt_lt_1; assumption | apply sqrt_lt_0; assumption].
Qed.
End Distances.


(** ** Angles as real numbers *)

Section Angles.
Local Open Scope R_scope.

Lemma atan_m1 : atan (-1) = - (PI / 4).
Proof.
  replace (-1) with (Ropp 1) by lra.
  rewrite atan_opp, atan_1. reflexivity.
Qed.

(** Where [atan t] lies with respect to the two diagonals. *)
Lemma atan_diag (t : R) :
  - (PI / 2) < atan t < PI / 2 /\
  (t < -1 -> atan t < - (PI / 4)) /\
  (t = -1 -> atan t = - (PI / 4)) /\
  (-1 < t -> - (PI / 4) < atan t) /\
  (t < 1 -> atan t < PI / 4) /\
  (t = 1 -> atan t = PI / 4) /\
  (1 < t -> PI / 4 < atan t).
Proof.
  pose proof (atan_bound t) as Hb.
  repeat split.
  - lra.
  - lra.
  - intros H. rewrite <- atan_m1. apply atan_increasing, H.
  - intros ->. apply atan_m1.
  - intros H. rewrite <- atan_m1. apply atan_increasing, H.
  - intros H. rewrite <- atan_1. apply atan_increasing, H.
  - intros ->. apply atan_1.
  - intros H. rewrite <- atan_1. apply atan_increasing, H.
Qed.

Lemma atan2_cases (y x : R) : atan2_case y x (atan2 y x).
Proof.
  unfold atan2.
  destruct (Rlt_dec 0 x) as [Hx | Hx].
  - apply At2_right; [exact Hx | field; lra].
  - destruct (Rlt_dec x 0) as [Hx' | Hx'].
    + destruct (Rle_dec 0 y) as [Hy | Hy].
      * apply At2_upper_left; [exact Hx' | exact Hy | field; lra].
      * apply At2_lower_left; [exact Hx' | lra | field; lra].
    + assert (x = 0) as Hx0 by lra.
      destruct (Rlt_dec 0 y) as [Hy | Hy]; [apply At2_up; assumption |].
      destruct (Rlt_dec y 0) as [Hy' | Hy']; [apply At2_down; assumption |].
      apply At2_origin; lra.
Qed.

Ltac atan2_solve y x :=
  pose proof PI_RGT_0 as Hpi;
  destruct (atan2_cases y x)
    as [t Hx Ht | t Hx Hy Ht | t Hx Hy Ht | Hx Hy | Hx Hy | Hx Hy];
  try (destruct (atan_diag t) as (Hb & Hlm & Hem & Hgm & Hl1 & He1 & Hg1);
       (destruct (Rtotal_order t (-1)) as [C1 | [C1 | C1]];
        [ specialize (Hlm C1) | specialize (Hem C1) | specialize (Hgm C1) ]);
       (destruct (Rtotal_order t 1) as [C2 | [C2 | C2]];
        [ specialize (Hl1 C2) | specialize (He1 C2) | specialize (Hg1 C2) ]);
       try (exfalso; lra));
  subst; (split; [intros H; split; nra | intros [H1 H2]; nra]).

Lemma atan2_gt_quarter (y x : R) :
  PI / 4 < atan2 y x <-> 0 <= y /\ x < y.
Proof. atan2_solve y x. Qed.

Lemma atan2_gt_three_quarters (y x : R) :
  3 * (PI / 4) < atan2 y x <-> 0 <= y /\ x < - y.
Proof. atan2_solve y x. Qed.

Lemma atan2_lt_m_quarter (y x : R) :
  atan2 y x < - (PI / 4) <-> y < 0 /\ x < - y.
Proof. atan2_solve y x. Qed.

Lemma atan2_lt_m_three_quarters (y x : R) :
  atan2 y x < - (3 * (PI / 4)) <-> y < 0 /\ x < y.
Proof. atan2_solve y x. Qed.

Lemma atan2_range (y x : R) : - PI < atan2 y x <= PI.
Proof.
  pose proof PI_RGT_0 as Hpi.
  destruct (atan2_cases y x)
    as [t Hx Ht | t Hx Hy Ht | t Hx Hy Ht | Hx Hy | Hx Hy | Hx Hy];
    try (pose proof (atan_bound t) as Hb); try lra.
  - (* x < 0 <= y: the quotient is not positive *)
    destruct (Rle_dec t 0) as [Ht0 | Ht0]; [| nra].
    destruct Ht0 as [Ht0 | Ht0].
    + pose proof (atan_increasing _ _ Ht0) as Hi. rewrite atan_0 in Hi. lra.
    + subst t. rewrite atan_0. lra.
  - (* x < 0, y < 0: the quotient is positive *)
    assert (0 < t) as Ht0 by nra.
    pose proof (atan_increasing _ _ Ht0) as Hi. rewrite atan_0 in Hi. lra.
Qed.
End Angles.

Section Degrees.
Local Open Scope R_scope.

Lemma degrees_lt (a b : R) : a < b <-> degrees a < degrees b.
Proof.
  pose proof PI_RGT_0 as Hpi.
  assert (0 < 180 / PI) as Hk by (apply Rdiv_lt_0_compat; lra).
  unfold degrees.
  replace (a * 180 / PI) with (a * (180 / PI)) by (field; lra).
  replace (b * 180 / PI) with (b * (180 / PI)) by (field; lra).
  split; intros H; nra.
Qed.

Lemma degrees_quarter (k : R) : degrees (k * (PI / 4)) = k * 45.
Proof. pose proof PI_RGT_0. unfold degrees. field. lra. Qed.

Lemma angle_gt_45_spec (a : angle) :
  angle_gt_45 a = true <-> 45 < angle_val a.
Proof.
  unfold angle_gt_45, angle_val.
  rewrite andb_true_iff, Qle_bool_Rle, Qltb_Rlt.
  replace (Q2R 0) with 0 by lra.
  rewrite <- atan2_gt_quarter.
  replace 45 with (degrees (1 * (PI / 4))) by (rewrite degrees_quarter; lra).
  rewrite <- degrees_lt. replace (1 * (PI / 4)) with (PI / 4) by lra.
  reflexivity.
Qed.

Lemma angle_gt_135_spec (a : angle) :
  angle_gt_135 a = true <-> 135 < angle_val a.
Proof.
  unfold angle_gt_135, angle_val.
  rewrite andb_true_iff, Qle_bool_Rle, Qltb_Rlt, Q2R_opp.
  replace (Q2R 0) with 0 by lra.
  rewrite <- atan2_gt_three_quarters.
  replace 135 with (degrees (3 * (PI / 4))) by (rewrite degrees_quarter; lra).
  rewrite <- degrees_lt. reflexivity.
Qed.

Lemma angle_lt_m45_spec (a : angle) :
  angle_lt_m45 a = true <-> angle_val a < -45.
Proof.
  unfold angle_lt_m45, angle_val.
  rewrite andb_true_iff, !Qltb_Rlt, Q2R_opp.
  replace (Q2R 0) with 0 by lra.
  rewrite <- atan2_lt_m_quarter.
  replace (-45) with (degrees ((-1) * (PI / 4)))
    by (rewrite degrees_quarter; lra).
  rewrite <- degrees_lt.
  replace (-1 * (PI / 4)) with (- (PI / 4)) by lra.
  reflexivity.
Qed.

Lemma angle_lt_m135_spec (a : angle) :
  angle_lt_m135 a = true <-> angle_val a < -135.
Proof.
  unfold angle_lt_m135, angle_val.
  rewrite andb_true_iff, !Qltb_Rlt.
  replace (Q2R 0) with 0 by lra.
  rewrite <- atan2_lt_m_three_quarters.
  replace (-135) with (degrees ((-3) * (PI / 4)))
    by (rewrite degrees_quarter; lra).
  rewrite <- degrees_lt.
  replace (-3 * (PI / 4)) with (- (3 * (PI / 4))) by lra.
  reflexivity.
Qed.

Lemma angle_val_range (a : angle) : -180 < angle_val a <= 180.
Proof.
  unfold angle_val.
  pose proof (atan2_range (Q2R (ang_y a)) (Q2R (ang_x a))) as [Hlo Hhi].
  replace 180 with (degrees (4 * (PI / 4))) by (rewrite degrees_quarter; lra).
  replace (-180) with (degrees ((-4) * (PI / 4)))
    by (rewrite degrees_quarter; lra).
  split.
  - apply (proj1 (degrees_lt _ _)). lra.
  - destruct Hhi as [Hhi | Hhi].
    + left. apply (proj1 (degrees_lt _ _)). lra.
    + right. f_equal. lra.
Qed.

Lemma false_iff_not (b : bool) (P : Prop) :
  (b = true <-> P) -> (b = false <-> ~ P).
Proof.
  intros [H1 H2]. destruct b; split; intros H; try discriminate; try reflexivity.
  - exfalso. apply H, H1. reflexivity.
  - intros HP. specialize (H2 HP). discriminate.
Qed.

(** The four comparisons, as propositions on the angle in degrees. *)
Lemma angle_tests (a : angle) :
  (angle_gt_45 a = false <-> angle_val a <= 45) /\
  (angle_gt_135 a = false <-> angle_val a <= 135) /\
  (angle_lt_m45 a = false <-> -45 <= angle_val a) /\
  (angle_lt_m135 a = false <-> -135 <= angle_val a).
Proof.
  rewrite (false_iff_not _ _ (angle_gt_45_spec a)).
  rewrite (false_iff_not _ _ (angle_gt_135_spec a)).
  rewrite (false_iff_not _ _ (angle_lt_m45_spec a)).
  rewrite (false_iff_not _ _ (angle_lt_m135_spec a)).
  repeat split; intros H; lra.
Qed.
End Degrees.

(** ** Direction labels *)

Lemma near_zero_test (dx dy : Q) :
  Qltb (Qabs dx) near_zero_threshold && Qltb (Qabs dy) near_zero_threshold = true
  <-> (Qabs dx < near_zero_threshold)%Q /\ (Qabs dy < near_zero_threshold)%Q.
Proof. rewrite andb_true_iff, !Qltb_lt. reflexivity. Qed.

Ltac split_all :=
  repeat match goal with
         | |- _ /\ _ => split
         | |- _ <-> _ => split
         end.

Ltac angle_facts a :=
  let H := fresh "Hang" in
  pose proof (angle_val_range a) as H;
  let E := fresh "E" in
  destruct (angle_gt_45 a) eqn:E;
    [apply angle_gt_45_spec in E | apply (proj1 (angle_tests a)) in E];
  let E := fresh "E" in
  destruct (angle_gt_135 a) eqn:E;
    [apply angle_gt_135_spec in E
    | apply (proj1 (proj2 (angle_tests a))) in E];
  let E := fresh "E" in
  destruct (angle_lt_m45 a) eqn:E;
    [apply angle_lt_m45_spec in E
    | apply (proj1 (proj2 (proj2 (angle_tests a)))) in E];
  let E := fresh "E" in
  destruct (angle_lt_m135 a) eqn:E;
    [apply angle_lt_m135_spec in E
    | apply (proj2 (proj2 (proj2 (angle_tests a)))) in E];
  try (exfalso; lra).


(** ** Strings *)

Section Strings.
Local Open Scope string_scope.

Abbreviation chars := list_ascii_of_string.

Lemma lower_char_not_space (c : ascii) :
  is_space c = false -> is_space (lower_char c) = false.
Proof.
  destruct c as [[] [] [] [] [] [] [] []]; intros H;
    first [reflexivity | discriminate H].
Qed.

Lemma lower_char_not_comma (c : ascii) :
  c <> ","%char -> lower_char c <> ","%char.
Proof.
  destruct c as [[] [] [] [] [] [] [] []]; intros H;
    first [exact H | discriminate].
Qed.

Lemma lower_char_idem (c : ascii) : lower_char (lower_char c) = lower_char c.
Proof. destruct c as [[] [] [] [] [] [] [] []]; reflexivity. Qed.

Lemma lower_idem (s : string) : lower (lower s) = lower s.
Proof.
  induction s as [| c s IH]; simpl; [reflexivity |].
  rewrite lower_char_idem, IH. reflexivity.
Qed.

Lemma chars_lower (s : string) : chars (lower s) = map lower_char (chars s).
Proof.
  induction s as [| c s IH]; simpl; [reflexivity | rewrite IH; reflexivity].
Qed.

Lemma lower_not_empty (s : string) : s <> "" -> lower s <> "".
Proof. destruct s; simpl; [congruence | discriminate]. Qed.

Lemma chars_replace_comma (s : string) (c : ascii) :
  In c (chars (replace_comma s)) -> c <> ","%char.
Proof.
  induction s as [| c0 s IH]; simpl; [tauto |].
  intros [H | H]; [| exact (IH H)].
  subst c. destruct (Ascii.eqb_spec c0 ","%char) as [E | E];
    [discriminate | exact E].
Qed.

(** Every token of [split] is a non-empty run of non-space characters of
    the text. *)
Lemma split_tokens (s t : string) :
  In t (split s) ->
  t <> "" /\
  forall c, In c (chars t) -> is_space c = false /\ In c (chars s).
Proof.
  revert t. induction s as [| c s IH]; intros t; simpl; [tauto |].
  destruct (is_space c) eqn:Ec.
  - intros H. destruct (IH t H) as [Hne Hc].
    split; [exact Hne |]. intros c0 H0. destruct (Hc c0 H0). auto.
  - assert (Hone : forall c0, In c0 (chars (String c "")) ->
              is_space c0 = false /\ In c0 (c :: chars s)).
    { simpl. intros c0 [<- | []]. split; [exact Ec | left; reflexivity]. }
    assert (Hrest : forall t', In t' (split s) -> t' <> "" /\
              forall c0, In c0 (chars t') ->
                is_space c0 = false /\ In c0 (c :: chars s)).
    { intros t' H. destruct (IH t' H) as [Hne Hc].
      split; [exact Hne |]. intros c0 H0. destruct (Hc c0 H0).
      split; [assumption | right; assumption]. }
    destruct s as [| c' s'].
    + intros [<- | []]. split; [discriminate | exact Hone].
    + destruct (is_space c') eqn:Ec'.
      * intros [<- | H]; [split; [discriminate | exact Hone] |].
        apply Hrest, H.
      * destruct (split (String c' s')) as [| t0 ts] eqn:Es.
        -- intros [<- | []]. split; [discriminate | exact Hone].
        -- intros [<- | H].
           ++ split; [discriminate |].
              simpl. intros c0 [<- | H0].
              ** split; [exact Ec | left; reflexivity].
              ** destruct (Hrest t0 (or_introl eq_refl)) as [_ Hc].
                 apply Hc, H0.
           ++ apply Hrest. right. exact H.
Qed.

Lemma lstrip_no_space (c : ascii) (s : string) :
  is_space c = false -> lstrip (String c s) = String c s.
Proof. intros H. simpl. rewrite H. reflexivity. Qed.

Lemma rstrip_no_space (s : string) :
  (forall c, In c (chars s) -> is_space c = false) -> rstrip s = s.
Proof.
  induction s as [| c s IH]; intros H; simpl; [reflexivity |].
  rewrite IH by (intros c0 H0; apply H; right; exact H0).
  destruct s; [| reflexivity].
  rewrite (H c) by (left; reflexivity). reflexivity.
Qed.

Lemma strip_no_space (s : string) :
  (forall c, In c (chars s) -> is_space c = false) -> strip s = s.
Proof.
  intros H. unfold strip. rewrite rstrip_no_space by exact H.
  destruct s as [| c s]; [reflexivity |].
  apply lstrip_no_space, H. left. reflexivity.
Qed.

Lemma split_strip_filter (s : string) :
  List.filter (fun item => negb (is_empty_str (strip item))) (split s)
  = split s.
Proof.
  apply forallb_filter_id, forallb_forall. intros t Ht.
  destruct (split_tokens s t Ht) as [Hne Hc].
  rewrite strip_no_space by (intros c H; apply Hc, H).
  destruct t; [congruence | reflexivity].
Qed.

Lemma parse_itens_eq (itens : string) :
  parse_itens itens = map lower (split (replace_comma itens)).
Proof.
  unfold parse_itens. rewrite split_strip_filter.
  apply map_ext_in. intros t Ht.
  destruct (split_tokens _ t Ht) as [_ Hc].
  rewrite strip_no_space by (intros c H; apply Hc, H). reflexivity.
Qed.

(** [prefix] and [str_in] against concatenation. *)
Lemma append_cons (c : ascii) (s p : string) :
  String c s ++ p = String c (s ++ p).
Proof. reflexivity. Qed.

Lemma append_nil (p : string) : "" ++ p = p.
Proof. reflexivity. Qed.

Lemma prefix_app (s t : string) :
  starts_with s t = true <-> exists post, t = s ++ post.
Proof.
  revert t. induction s as [| c s IH]; intros t; simpl.
  - split; [intros _; exists t; reflexivity | reflexivity].
  - destruct t as [| c' t].
    { split; [discriminate |].
      intros [p Hp]. rewrite append_cons in Hp. discriminate. }
    rewrite andb_true_iff, IH.
    destruct (Ascii.eqb_spec c c') as [<- | NE].
    + split; [intros [_ [p Hp]] | intros [p Hp]; split; [reflexivity |]];
        exists p; rewrite append_cons in *; congruence.
    + split; [intros [H _]; discriminate |].
      intros [p Hp]. rewrite append_cons in Hp. congruence.
Qed.

Lemma str_in_app (s t : string) :
  str_in s t = true <-> exists pre post, t = pre ++ s ++ post.
Proof.
  induction t as [| c t IH]; simpl; rewrite orb_true_iff, prefix_app.
  - split.
    + intros [[p Hp] | H]; [exists "", p; exact Hp | discriminate].
    + intros (pre & post & H). left. exists post.
      destruct pre; [exact H | rewrite append_cons in H; discriminate].
  - rewrite IH. split.
    + intros [[p Hp] | (pre & post & H)].
      * exists "", p. exact Hp.
      * exists (String c pre), post. rewrite append_cons. congruence.
    + intros (pre & post & H). destruct pre as [| c0 pre].
      * left. exists post. exact H.
      * right. exists pre, post. rewrite append_cons in H. congruence.
Qed.
End Strings.

(** ** Saving the list *)

Lemma is_empty_str_false (s : string) : is_empty_str s = false <-> s <> ""%string.
Proof. destruct s; simpl; split; congruence. Qed.



(** A two-word name is stored as two items. *)
Example guardar_leite_magro :
  fst (guardar_lista_compras "leite magro" sem_ficheiros)
  = Sucesso ["leite"; "magro"]%string.
Proof. reflexivity. Qed.

(** A blank text is refused and nothing is written. *)
Lemma guardar_lista_blank (itens : string) (fs : Ficheiros) :
  strip itens = ""%string ->
  guardar_lista_compras itens fs = (Erro ListaVazia, fs).
Proof. intros H. unfold guardar_lista_compras. rewrite H. reflexivity. Qed.

(** ** Looking products up by name *)

Lemma find_first_such {A : Type} (f : A -> bool) (l : list A) :
  match List.find f l with
  | Some x => first_such f l x
  | None => forall y, In y l -> f y = false
  end.
Proof.
  induction l as [| a l IH]; simpl; [tauto |].
  destruct (f a) eqn:Ea.
  - exists [], l. repeat split; [exact Ea | intros y []].
  - destruct (List.find f l) as [x |].
    + destruct IH as (l1 & l2 & -> & Hx & Hl1).
      exists (a :: l1), l2. repeat split; [exact Hx |].
      intros y [<- | Hy]; [exact Ea | exact (Hl1 y Hy)].
    + intros y [<- | Hy]; [exact Ea | exact (IH y Hy)].
Qed.

Lemma correspondencias_spec (item : string) (produtos : list Localizacao)
    (p : Localizacao) :
  In p (correspondencias item produtos) <->
  In p produtos /\
  exists pre post : string,
    lower (nome_produto p) = (pre ++ lower item ++ post)%string.
Proof.
  unfold correspondencias. rewrite filter_In, str_in_app. reflexivity.
Qed.

(** C3, as the code has it.  The matcher of [obter_localizacoes_lista]
    keeps every catalogue entry whose name contains the item, letter case
    ignored, so an item resolves to zero, one or many entries;
    [StoreMap.find_by_name] returns the first product whose name equals the
    text, letter case ignored, and nothing when there is none. *)
Theorem name_lookup_substring_and_exact (item : string)
    (produtos : list Localizacao) (sm : StoreMap) (n : string) :
  (forall p, In p (correspondencias item produtos) <->
     In p produtos /\
     exists pre post : string,
       lower (nome_produto p) = (pre ++ lower item ++ post)%string) /\
  match find_by_name sm n with
  | Some p =>
      first_such (fun q => String.eqb (lower (name q)) (lower n)) (map snd sm) p
      /\ lower (name p) = lower n
  | None => forall q, In q (map snd sm) -> lower (name q) <> lower n
  end.
Proof.
  split; [intros p; apply correspondencias_spec |].
  unfold find_by_name.
  pose proof (find_first_such
                (fun q => String.eqb (lower (name q)) (lower n)) (map snd sm)) as H.
  destruct (List.find _ _) as [p |].
  - split; [exact H |]. destruct H as (_ & _ & _ & Hp & _).
    apply String.eqb_eq, Hp.
  - intros q Hq. apply String.eqb_neq, H, Hq.
Qed.

(** The claim C3 fails on [find_by_name]: a product whose name contains the
    text is not returned unless the whole name equals it, and of two
    products with equal names only the first is returned. *)
Lemma find_by_name_not_substring :
  In leite_magro (map snd store_leite) /\
  str_in (lower "leite") (lower (name leite_magro)) = true /\
  find_by_name store_leite "leite" = None /\
  find_by_name store_leite "LEITE MAGRO" = Some leite_magro /\
  length (List.filter
            (fun q => str_in (lower "LEITE MAGRO") (lower (name q)))
            (map snd store_leite)) = 2%nat.
Proof. vm_compute. repeat split. left. reflexivity. Qed.

(** One item, two catalogue entries. *)
Example correspondencias_leite :
  map nome_produto (correspondencias "leite" catalogo_leite)
  = ["Leite Magro"; "leite de soja"]%string.
Proof. reflexivity. Qed.

(** ** The nearest-neighbour loop *)

Section RootOrder.
Lemma root_ltb_lt (a b : root) :
  root_ltb a b = true <-> (radicand a < radicand b)%Q.
Proof. apply Qltb_lt. Qed.

Lemma root_leb_le (a b : root) :
  root_leb a b = true <-> (radicand a <= radicand b)%Q.
Proof. apply Qle_bool_iff. Qed.

Lemma root_ltb_false (a b : root) :
  root_ltb a b = false -> root_leb b a = true.
Proof. intros H. apply root_leb_le. apply Qltb_ge in H. exact H. Qed.

Lemma root_ltb_trans (a b c : root) :
  root_ltb a b = true -> root_ltb b c = true -> root_ltb a c = true.
Proof.
  rewrite !root_ltb_lt. intros H1 H2. exact (Qlt_trans _ _ _ H1 H2).
Qed.

Lemma root_ltb_leb_trans (a b c : root) :
  root_ltb a b = true -> root_leb b c = true -> root_ltb a c = true.
Proof.
  rewrite !root_ltb_lt, root_leb_le. intros H1 H2.
  exact (Qlt_le_trans _ _ _ H1 H2).
Qed.
End RootOrder.

Section MinByKey.
Context {A : Type} (key : A -> root).

Lemma min_from_first (l s1 s2 : list A) (best : A) :
  (forall u, In u s1 -> root_ltb (key best) (key u) = true) ->
  (forall u, In u s2 -> root_leb (key best) (key u) = true) ->
  first_min key (s1 ++ best :: s2 ++ l) (min_from key best l).
Proof.
  revert s1 s2 best. induction l as [| x l IH]; intros s1 s2 best H1 H2; simpl.
  - exists s1, s2. rewrite app_nil_r. auto.
  - destruct (root_ltb (key x) (key best)) eqn:E.
    + replace (s1 ++ best :: s2 ++ x :: l)
        with ((s1 ++ best :: s2) ++ x :: [] ++ l)
        by (rewrite <- app_assoc; reflexivity).
      apply IH; [| intros u []].
      intros u Hu. apply in_app_or in Hu as [Hu | [<- | Hu]].
      * exact (root_ltb_trans _ _ _ E (H1 u Hu)).
      * exact E.
      * exact (root_ltb_leb_trans _ _ _ E (H2 u Hu)).
    + replace (s1 ++ best :: s2 ++ x :: l)
        with (s1 ++ best :: (s2 ++ [x]) ++ l)
        by (rewrite <- (app_assoc s2); reflexivity).
      apply IH; [exact H1 |].
      intros u Hu. apply in_app_or in Hu as [Hu | [<- | []]].
      * exact (H2 u Hu).
      * exact (root_ltb_false _ _ E).
Qed.

Lemma py_min_first (l : list A) (q : A) :
  py_min key l = Some q -> first_min key l q.
Proof.
  destruct l as [| x l]; simpl; [discriminate |].
  intros [= <-].
  apply (min_from_first l [] [] x); intros u [].
Qed.

Lemma py_min_none (l : list A) : py_min key l = None -> l = [].
Proof. destruct l; [reflexivity | discriminate]. Qed.

Lemma first_min_In (l : list A) (q : A) : first_min key l q -> In q l.
Proof.
  intros (l1 & l2 & -> & _). apply in_or_app. right. left. reflexivity.
Qed.
End MinByKey.

Lemma math_dist_radicand_nonneg (a b : point) :
  (0 <= Q2R (radicand (math_dist a b)))%R.
Proof. rewrite math_dist_distance. apply distance_radicand_nonneg. Qed.

Lemma first_min_nearest {A : Type} (pos : A -> point) (from : point)
    (l : list A) (q : A) :
  first_min (fun u => math_dist from (pos u)) l q ->
  first_nearest pos from l q.
Proof.
  intros (l1 & l2 & -> & H1 & H2). exists l1, l2.
  split; [reflexivity |]. split; intros u Hu.
  - rewrite <- !math_dist_euclid.
    apply root_ltb_spec; auto using math_dist_radicand_nonneg.
  - rewrite <- !math_dist_euclid.
    apply root_leb_spec; auto using math_dist_radicand_nonneg.
Qed.

Lemma first_nearest_In {A : Type} (pos : A -> point) (from : point)
    (l : list A) (q : A) :
  first_nearest pos from l q -> In q l.
Proof.
  intros (l1 & l2 & -> & _). apply in_or_app. right. left. reflexivity.
Qed.

(** No element of the list is strictly nearer than the first nearest. *)
Lemma first_nearest_least {A : Type} (pos : A -> point) (from : point)
    (l : list A) (q u : A) :
  first_nearest pos from l q -> In u l ->
  (euclid from (pos q) <= euclid from (pos u))%R.
Proof.
  intros (l1 & l2 & -> & H1 & H2) Hu.
  apply in_app_or in Hu as [Hu | [<- | Hu]].
  - left. exact (H1 u Hu).
  - right. reflexivity.
  - exact (H2 u Hu).
Qed.

Section NearestNeighborLoop.
Context {A : Type} (nome : A -> string) (pos : A -> point).
Context (produtos : list A) (primeiro : A).

Implicit Types (st : nn_state (A := A)) (r : list A) (vis : gset string).

Lemma nao_visitados_In (vis : gset string) (p : A) :
  In p (nao_visitados nome produtos vis) <-> In p produtos /\ nome p ∉ vis.
Proof.
  unfold nao_visitados. rewrite filter_In, bool_decide_eq_true. reflexivity.
Qed.

Lemma elem_of_nomes_de (r : list A) (x : string) :
  x ∈ nomes_de nome r <-> In x (map nome r).
Proof.
  unfold nomes_de. rewrite elem_of_list_to_set. apply list_elem_of_In.
Qed.

Lemma nomes_de_snoc (r : list A) (x : A) :
  nomes_de nome (r ++ [x]) = nomes_de nome r ∪ {[ nome x ]}.
Proof.
  unfold nomes_de. rewrite map_app, list_to_set_app_L. simpl.
  rewrite union_empty_r_L. reflexivity.
Qed.

Lemma size_nomes_de (r : list A) :
  NoDup (map nome r) -> size (nomes_de nome r) = length r.
Proof.
  intros H. unfold nomes_de.
  rewrite size_list_to_set by exact H. apply length_map.
Qed.

(** One turn of the loop keeps the invariant. *)
Lemma nn_inv_passo (st : nn_state (A := A)) (proximo : A) :
  nn_inv nome pos produtos primeiro st ->
  py_min (fun p => math_dist (pos (atual st)) (pos p))
         (nao_visitados nome produtos (visitados st)) = Some proximo ->
  nn_inv nome pos produtos primeiro (passo nome st proximo).
Proof.
  intros (Hlast & Hvis & Hnd & Hin & Hhead & Hchain) Hmin.
  apply py_min_first, first_min_nearest in Hmin.
  pose proof (first_nearest_In _ _ _ _ Hmin) as Hprox.
  apply nao_visitados_In in Hprox as [Hprox Hfresh].
  unfold nn_inv, passo; simpl.
  split; [apply last_snoc |].
  split; [rewrite nomes_de_snoc, Hvis; reflexivity |].
  split.
  { rewrite map_app. apply NoDup_app. split; [exact Hnd |].
    split; [| apply NoDup_singleton].
    intros x Hx Hx'. apply list_elem_of_singleton in Hx'. subst x.
    apply Hfresh. rewrite Hvis. apply elem_of_nomes_de, list_elem_of_In, Hx. }
  split.
  { intros p Hp. apply in_app_or in Hp as [Hp | [<- | []]]; auto. }
  split.
  { destruct (rota st); [discriminate | exact Hhead]. }
  intros i p q Hp Hq.
  destruct (Nat.lt_ge_cases (S i) (length (rota st))) as [Hlt | Hge].
  - rewrite lookup_app_l in Hp by lia. rewrite lookup_app_l in Hq by lia.
    rewrite take_app_le by lia. exact (Hchain i p q Hp Hq).
  - assert (S i = length (rota st)) as Hi.
    { apply lookup_lt_Some in Hq. rewrite length_app in Hq. simpl in Hq. lia. }
    rewrite Hi in Hq |- *.
    rewrite take_app_length.
    rewrite lookup_app_l in Hp by lia.
    rewrite last_lookup, <- Hi in Hlast. simpl in Hlast.
    assert (p = atual st) as -> by congruence.
    rewrite list_lookup_middle in Hq by reflexivity.
    assert (q = proximo) as -> by congruence.
    rewrite <- Hvis. exact Hmin.
Qed.

Lemma nn_loop_inv (fuel : nat) (st st' : nn_state (A := A)) :
  nn_inv nome pos produtos primeiro st ->
  nn_loop nome pos fuel produtos st = Some st' ->
  nn_inv nome pos produtos primeiro st' /\ nn_exit nome produtos st'.
Proof.
  revert st. induction fuel as [| fuel IH]; intros st Hinv; simpl;
    case_bool_decide as Hguard; try discriminate.
  - intros [= <-]. split; [exact Hinv | left; lia].
  - destruct (py_min _ _) as [proximo |] eqn:Hmin.
    + apply IH. exact (nn_inv_passo st proximo Hinv Hmin).
    + intros [= <-]. split; [exact Hinv |].
      right. exact (py_min_none _ _ Hmin).
  - intros [= <-]. split; [exact Hinv | left; lia].
Qed.

(** The loop ends within [length produtos] turns. *)
Lemma nn_loop_total (fuel : nat) (st : nn_state (A := A)) :
  (length produtos <= fuel + size (visitados st))%nat ->
  is_Some (nn_loop nome pos fuel produtos st).
Proof.
  revert st. induction fuel as [| fuel IH]; intros st Hfuel; simpl;
    case_bool_decide as Hguard; try (eexists; reflexivity); try lia.
  destruct (py_min _ _) as [proximo |] eqn:Hmin; [| eexists; reflexivity].
  apply IH. simpl.
  apply py_min_first, first_min_In, nao_visitados_In in Hmin as [_ Hfresh].
  rewrite size_union by set_solver. rewrite size_singleton. lia.
Qed.

(** At the exit every name of the input is on the route. *)
Lemma nn_exit_cobre (st : nn_state (A := A)) :
  nn_inv nome pos produtos primeiro st -> nn_exit nome produtos st ->
  cobre nome produtos (rota st).
Proof.
  intros (Hlast & Hvis & Hnd & Hin & Hhead & Hchain) Hexit.
  assert (Hsub : map nome (rota st) ⊆+ map nome produtos).
  { apply NoDup_submseteq; [exact Hnd |].
    intros x Hx. apply list_elem_of_In in Hx. apply list_elem_of_In.
    apply in_map_iff in Hx as (p & <- & Hp). apply in_map, Hin, Hp. }
  assert (Hlen : (length (rota st) <= length produtos)%nat).
  { apply submseteq_length in Hsub. rewrite !length_map in Hsub. exact Hsub. }
  split; [exact Hnd |]. split; [exact Hin |]. split; [| exact Hlen].
  intros p Hp. destruct Hexit as [Hsize | Hnone].
  - rewrite Hvis, size_nomes_de in Hsize by exact Hnd.
    assert (Hperm : map nome (rota st) ≡ₚ map nome produtos).
    { apply submseteq_length_Permutation; [exact Hsub |].
      rewrite !length_map. exact Hsize. }
    apply list_elem_of_In. rewrite Hperm. apply list_elem_of_In, in_map, Hp.
  - apply elem_of_nomes_de. rewrite <- Hvis.
    destruct (decide (nome p ∈ visitados st)) as [Hv | Hv]; [exact Hv |].
    assert (In p (nao_visitados nome produtos (visitados st))) as Hc
      by (apply nao_visitados_In; auto).
    rewrite Hnone in Hc. destruct Hc.
Qed.
End NearestNeighborLoop.

(** ** The routes *)

Lemma NoDup_map_eq {A B : Type} (f : A -> B) (l : list A) (x y : A) :
  NoDup (map f l) -> In x l -> In y l -> f x = f y -> x = y.
Proof.
  induction l as [| a l IH]; simpl; [tauto |].
  rewrite NoDup_cons. intros [Ha Hnd] Hx Hy Hf.
  destruct Hx as [-> | Hx], Hy as [-> | Hy]; auto.
  - exfalso. apply Ha. rewrite Hf. apply list_elem_of_In, in_map, Hy.
  - exfalso. apply Ha. rewrite <- Hf. apply list_elem_of_In, in_map, Hx.
Qed.

Lemma NoDup_of_map {A B : Type} (f : A -> B) (l : list A) :
  NoDup (map f l) -> NoDup l.
Proof.
  induction l as [| a l IH]; simpl; [intros _; apply NoDup_nil_2 |].
  rewrite !NoDup_cons. intros [Ha Hnd]. split; [| exact (IH Hnd)].
  intros Hin. apply Ha. apply list_elem_of_In, in_map, list_elem_of_In, Hin.
Qed.

Section RotaVizinho.
Context {A : Type} (nome : A -> string) (pos : A -> point).

(** From a non-empty list the loop returns a route: it starts at the first
    product of the list, every later stop is the first nearest unvisited
    product, and every name of the list is on it once. *)
Lemma rota_vizinho_correct (primeiro : A) (resto : list A) :
  exists r : list A,
    rota_vizinho nome pos primeiro resto = Some r /\
    head r = Some primeiro /\
    nn_chain nome pos (primeiro :: resto) r /\
    cobre nome (primeiro :: resto) r.
Proof.
  set (produtos := primeiro :: resto).
  set (st0 := mkNN [primeiro] {[ nome primeiro ]} primeiro).
  assert (Hinv0 : nn_inv nome pos produtos primeiro st0).
  { unfold nn_inv, st0; simpl.
    split; [reflexivity |].
    split; [unfold nomes_de; simpl; rewrite union_empty_r_L; reflexivity |].
    split; [apply NoDup_singleton |].
    split; [intros p [<- | []]; left; reflexivity |].
    split; [reflexivity |].
    intros i p q _ Hq. destruct i; discriminate. }
  destruct (nn_loop_total nome pos produtos (length produtos) st0) as [st Hst];
    [lia |].
  destruct (nn_loop_inv nome pos produtos primeiro _ _ _ Hinv0 Hst)
    as [Hinv Hexit].
  exists (rota st). unfold rota_vizinho. fold produtos. fold st0.
  rewrite Hst. split; [reflexivity |].
  split; [apply Hinv |]. split; [apply Hinv |].
  exact (nn_exit_cobre nome pos produtos primeiro st Hinv Hexit).
Qed.

(** When the names of the input are distinct the route is a permutation
    of the input. *)
Lemma cobre_permutation (produtos r : list A) :
  cobre nome produtos r -> NoDup (map nome produtos) ->
  r ≡ₚ produtos /\ NoDup r /\ length r = length produtos.
Proof.
  intros (Hnd & Hin & Hall & Hlen) Hdist.
  assert (Hperm : r ≡ₚ produtos).
  { apply NoDup_Permutation.
    - exact (NoDup_of_map nome r Hnd).
    - exact (NoDup_of_map nome produtos Hdist).
    - intros x. rewrite !list_elem_of_In. split; [apply Hin |].
      intros Hx. destruct (proj1 (in_map_iff _ _ _) (Hall x Hx)) as (y & Hy & Hyr).
      rewrite <- (NoDup_map_eq nome produtos y x Hdist (Hin y Hyr) Hx Hy).
      exact Hyr. }
  split; [exact Hperm |]. split; [exact (NoDup_of_map nome r Hnd) |].
  apply Permutation_length, Hperm.
Qed.

(** No product whose name is not yet on the route is strictly nearer to a
    stop than the stop that follows it. *)
Lemma nn_chain_least (produtos r : list A) (i : nat) (p q u : A) :
  nn_chain nome pos produtos r ->
  r !! i = Some p -> r !! S i = Some q ->
  In u produtos -> ~ In (nome u) (map nome (take (S i) r)) ->
  (euclid (pos p) (pos q) <= euclid (pos p) (pos u))%R.
Proof.
  intros Hchain Hp Hq Hu Hfresh.
  apply (first_nearest_least pos (pos p) _ q u (Hchain i p q Hp Hq)).
  apply nao_visitados_In. split; [exact Hu |].
  rewrite elem_of_nomes_de. exact Hfresh.
Qed.
End RotaVizinho.

Lemma com_coordenadas_In (resultados : list Resultado) (l : Local) :
  In l (com_coordenadas resultados) <-> In (Encontrado l) resultados.
Proof.
  unfold com_coordenadas. rewrite in_flat_map. split.
  - intros ([l' | n] & Hr & Hl); simpl in Hl; [| destruct Hl].
    destruct Hl as [<- | []]. exact Hr.
  - intros H. exists (Encontrado l). split; [exact H | left; reflexivity].
Qed.



(** Without the distinctness: the route never repeats a name, has only
    located products and is never longer than their list. *)
Lemma gerar_rota_cobre (resultados : list Resultado) :
  com_coordenadas resultados <> [] ->
  exists r : list Local,
    gerar_rota_de resultados = Some (Sucesso r) /\
    cobre produto (com_coordenadas resultados) r.
Proof.
  intros Hne. unfold gerar_rota_de.
  destruct (com_coordenadas resultados) as [| primeiro resto]; [congruence |].
  destruct (rota_vizinho_correct produto pos_local primeiro resto)
    as (r & Hr & _ & _ & Hcobre).
  exists r. rewrite Hr. split; [reflexivity | exact Hcobre].
Qed.

(** The visited set holds names: of two located products with one name
    only the first is visited. *)
Example rota_same_name :
  rota_vizinho produto pos_local local_leite_a [local_leite_b]
  = Some [local_leite_a].
Proof. vm_compute. reflexivity. Qed.

(** ** The stable sort of [plan_route] *)

Section SortBy.
Context {A : Type} (key : A -> root).

Lemma insert_by_perm (x : A) (l : list A) : insert_by key x l ≡ₚ x :: l.
Proof.
  induction l as [| y l IH]; simpl; [reflexivity |].
  destruct (root_leb (key x) (key y)); [reflexivity |].
  rewrite IH. apply Permutation_swap.
Qed.

Lemma sort_by_perm (l : list A) : sort_by key l ≡ₚ l.
Proof.
  induction l as [| x l IH]; simpl; [reflexivity |].
  rewrite insert_by_perm, IH. reflexivity.
Qed.

Lemma root_leb_total (a b : root) :
  root_leb a b = false -> root_leb b a = true.
Proof.
  unfold root_leb. intros H. apply Qle_bool_gt in H.
  apply Qle_bool_iff, Qlt_le_weak, H.
Qed.

Lemma root_leb_trans (a b c : root) :
  root_leb a b = true -> root_leb b c = true -> root_leb a c = true.
Proof.
  rewrite !root_leb_le. intros H1 H2. exact (Qle_trans _ _ _ H1 H2).
Qed.

Lemma insert_by_sorted (x : A) (l : list A) :
  StronglySorted (fun a b => root_leb (key a) (key b) = true) l ->
  StronglySorted (fun a b => root_leb (key a) (key b) = true)
                 (insert_by key x l).
Proof.
  induction 1 as [| y l Hs IH Hy]; simpl.
  - constructor; [constructor | constructor].
  - destruct (root_leb (key x) (key y)) eqn:E.
    + constructor; [constructor; assumption |].
      constructor; [exact E |].
      eapply Forall_impl; [exact Hy |].
      intros z Hz. exact (root_leb_trans _ _ _ E Hz).
    + constructor; [exact IH |].
      rewrite insert_by_perm. constructor; [| exact Hy].
      exact (root_leb_total _ _ E).
Qed.

Lemma sort_by_sorted (l : list A) :
  StronglySorted (fun a b => root_leb (key a) (key b) = true) (sort_by key l).
Proof.
  induction l as [| x l IH]; simpl; [constructor |].
  apply insert_by_sorted, IH.
Qed.
End SortBy.

Lemma sort_by_distance (start : point) (found : list Product) :
  by_distance_from start
    (sort_by (fun p => distance start (position p)) found).
Proof.
  unfold by_distance_from.
  pose proof (sort_by_sorted (fun p => distance start (position p)) found) as H.
  induction H as [| y l Hs IH Hy]; constructor; [exact IH |].
  eapply Forall_impl; [exact Hy |].
  intros z Hz. simpl in Hz. rewrite <- !distance_euclid.
  apply root_leb_spec; auto using distance_radicand_nonneg.
Qed.

Lemma com_passos_total (prev : point) (found : list Product) :
  exists route : list (Product * Z),
    com_passos prev found = Some route /\ map fst route = found.
Proof.
  revert prev. induction found as [| p found IH]; intros prev; simpl.
  - exists []. split; reflexivity.
  - destruct (IH (position p)) as (route & Hr & Hf).
    rewrite Hr. simpl.
    eexists. split; [reflexivity |]. simpl. rewrite Hf. reflexivity.
Qed.

Lemma plan_route_found (sm : StoreMap) (current_pos : point)
    (items : list string) :
  exists route : list (Product * Z),
    fst (plan_route sm current_pos items) = Some route /\
    map fst route
      = sort_by (fun p => distance current_pos (position p))
                (fst (procurar sm items)) /\
    snd (plan_route sm current_pos items) = snd (procurar sm items).
Proof.
  unfold plan_route. destruct (procurar sm items) as [found avisos]. simpl.
  destruct (com_passos_total current_pos
              (sort_by (fun p => distance current_pos (position p)) found))
    as (route & Hr & Hf).
  exists route. rewrite Hr. auto.
Qed.

(** ** Nearest neighbour: what the two planners do *)

Lemma euclid_lt_test (a b c : point) :
  root_ltb (distance a b) (distance a c) = true ->
  (euclid a b < euclid a c)%R.
Proof.
  intros H. rewrite <- !distance_euclid.
  apply root_ltb_spec; auto using distance_radicand_nonneg.
Qed.




(** ** Nothing to route *)

Lemma procurar_none (sm : StoreMap) (items : list string) :
  (forall it, In it items -> find_by_name sm it = None) ->
  procurar sm items = ([], items).
Proof.
  induction items as [| it items IH]; intros H; simpl; [reflexivity |].
  rewrite IH by (intros it' H'; apply H; right; exact H').
  rewrite (H it) by (left; reflexivity). reflexivity.
Qed.

(** C4, as the code has it.  With no located product,
    [gerar_rota_otimizada] returns no route: it answers with the error
    response "Nenhum produto com coordenadas encontrado.", without raising.
    [AgentAI.plan_route] returns the empty route when none of the items is
    found. *)
Theorem empty_match_outcome (fs : Ficheiros) (resultados : list Resultado)
    (sm : StoreMap) (start : point) (items : list string) :
  obter_localizacoes_lista fs = Sucesso resultados ->
  com_coordenadas resultados = [] ->
  (forall it, In it items -> find_by_name sm it = None) ->
  gerar_rota_otimizada fs = Some (Erro SemCoordenadas) /\
  plan_route sm start items = (Some [], items).
Proof.
  intros Hobter Hm Hnone. split.
  - unfold gerar_rota_otimizada, gerar_rota_de. rewrite Hobter, Hm. reflexivity.
  - unfold plan_route. rewrite (procurar_none sm items Hnone). reflexivity.
Qed.

Lemma empty_match_outcome_witness :
  gerar_rota_otimizada ficheiros_sem_match = Some (Erro SemCoordenadas) /\
  plan_route demo_store origem ["xyz"]%string = (Some [], ["xyz"]%string).
Proof.
  apply (empty_match_outcome ficheiros_sem_match
           [NaoEncontrado "xyz"] demo_store origem ["xyz"]%string).
  - reflexivity.
  - reflexivity.
  - intros it [<- | []]. reflexivity.
Defined.

(** The claim C4 fails on [gerar_rota_otimizada]: the empty set of located
    products gives an error response, not a success with an empty route. *)
Lemma empty_match_is_error :
  obter_localizacoes_lista ficheiros_sem_match
    = Sucesso [NaoEncontrado "xyz"] /\
  com_coordenadas [NaoEncontrado "xyz"] = [] /\
  gerar_rota_otimizada ficheiros_sem_match = Some (Erro SemCoordenadas) /\
  gerar_rota_otimizada ficheiros_sem_match <> Some (Sucesso []).
Proof. repeat split. discriminate. Qed.

(** ** Items that are not found *)

Lemma resultados_lista_app (l1 l2 : list string) (catalogo : list Localizacao) :
  resultados_lista (l1 ++ l2) catalogo
  = resultados_lista l1 catalogo ++ resultados_lista l2 catalogo.
Proof. apply flat_map_app. Qed.

Lemma com_coordenadas_app (r1 r2 : list Resultado) :
  com_coordenadas (r1 ++ r2) = com_coordenadas r1 ++ com_coordenadas r2.
Proof. apply flat_map_app. Qed.

Lemma procurar_app (sm : StoreMap) (l1 l2 : list string) :
  procurar sm (l1 ++ l2)
  = (fst (procurar sm l1) ++ fst (procurar sm l2),
     snd (procurar sm l1) ++ snd (procurar sm l2)).
Proof.
  induction l1 as [| it l1 IH]; simpl.
  - destruct (procurar sm l2). reflexivity.
  - rewrite IH. destruct (procurar sm l1) as [f1 a1].
    destruct (find_by_name sm it); reflexivity.
Qed.

Lemma plan_route_avisos (sm : StoreMap) (start : point) (items : list string) :
  snd (plan_route sm start items) = snd (procurar sm items).
Proof. unfold plan_route. destruct (procurar sm items). reflexivity. Qed.

Lemma plan_route_rota (sm : StoreMap) (start : point) (items : list string) :
  fst (plan_route sm start items)
  = com_passos start
      (sort_by (fun p => distance start (position p)) (fst (procurar sm items))).
Proof. unfold plan_route. destruct (procurar sm items). reflexivity. Qed.

(** C5.  An item that matches no catalogue entry is reported by itself, with
    its text unchanged, at its place among the results of the other items;
    the route is the one of the other items.  In [plan_route] the item is
    the subject of one warning and the route is the one of the other
    items. *)
Theorem item_not_found_reported (catalogo : list Localizacao)
    (antes depois : list string) (item : string)
    (sm : StoreMap) (start : point) :
  (correspondencias item catalogo = [] ->
   resultados_lista (antes ++ item :: depois) catalogo
     = resultados_lista antes catalogo
       ++ NaoEncontrado item :: resultados_lista depois catalogo /\
   gerar_rota_de (resultados_lista (antes ++ item :: depois) catalogo)
     = gerar_rota_de (resultados_lista (antes ++ depois) catalogo)) /\
  (find_by_name sm item = None ->
   snd (plan_route sm start (antes ++ item :: depois))
     = snd (plan_route sm start antes)
       ++ item :: snd (plan_route sm start depois) /\
   fst (plan_route sm start (antes ++ item :: depois))
     = fst (plan_route sm start (antes ++ depois))).
Proof.
  split.
  - intros Hnone.
    assert (Hres : resultados_lista (antes ++ item :: depois) catalogo
              = resultados_lista antes catalogo
                ++ NaoEncontrado item :: resultados_lista depois catalogo).
    { rewrite resultados_lista_app. simpl.
      unfold resultados_item at 1. rewrite Hnone. reflexivity. }
    split; [exact Hres |].
    unfold gerar_rota_de. rewrite Hres, resultados_lista_app.
    rewrite !com_coordenadas_app. reflexivity.
  - intros Hnone.
    rewrite !plan_route_avisos, !plan_route_rota, !procurar_app. simpl.
    rewrite Hnone. destruct (procurar sm depois). split; reflexivity.
Qed.

Lemma item_not_found_reported_witness :
  (resultados_lista (itens_antes ++ "pao"%string :: itens_depois) catalogo_leite
     = resultados_lista itens_antes catalogo_leite
       ++ NaoEncontrado "pao" :: resultados_lista itens_depois catalogo_leite /\
   gerar_rota_de
     (resultados_lista (itens_antes ++ "pao"%string :: itens_depois)
                       catalogo_leite)
     = gerar_rota_de
         (resultados_lista (itens_antes ++ itens_depois) catalogo_leite)) /\
  (snd (plan_route demo_store origem
          (itens_antes ++ "pao"%string :: itens_depois))
     = snd (plan_route demo_store origem itens_antes)
       ++ "pao"%string :: snd (plan_route demo_store origem itens_depois) /\
   fst (plan_route demo_store origem
          (itens_antes ++ "pao"%string :: itens_depois))
     = fst (plan_route demo_store origem (itens_antes ++ itens_depois))).
Proof.
  destruct (item_not_found_reported catalogo_leite itens_antes
              itens_depois "pao"%string demo_store origem) as [H1 H2].
  split; [apply H1 | apply H2]; reflexivity.
Defined.

(** ** The RFID scan *)

Section Scan.
Context (rng : nat -> Q) (range_m noise : Q) (position_ : point).

Lemma in_range_test (p : Product) :
  root_le_Q (distance position_ (position p)) range_m = true <->
  (euclid position_ (position p) <= Q2R range_m)%R.
Proof.
  rewrite <- distance_euclid.
  apply root_le_Q_spec, distance_radicand_nonneg.
Qed.

(** The draws are taken in order, so the counter never goes back. *)
Lemma scan_items_counter (items : StoreMap) (k : nat) :
  (k <= snd (scan_items rng range_m noise position_ items k))%nat.
Proof.
  revert k. induction items as [| [u p] items IH]; intros k; simpl; [lia |].
  destruct (root_le_Q _ _).
  - specialize (IH (S k)).
    destruct (scan_items rng range_m noise position_ items (S k)) as [found k'].
    simpl in IH. destruct (Qltb noise (rng k)); simpl; lia.
  - apply IH.
Qed.

(** Every entry is a product in range whose draw exceeds the noise
    probability. *)
Lemma scan_items_sound (items : StoreMap) (k : nat) (u : string) (d : root) :
  In (u, d) (fst (scan_items rng range_m noise position_ items k)) ->
  exists (p : Product) (j : nat),
    In (u, p) items /\ d = distance position_ (position p) /\
    (euclid position_ (position p) <= Q2R range_m)%R /\
    (k <= j)%nat /\ (noise < rng j)%Q.
Proof.
  revert k. induction items as [| [u0 p0] items IH]; intros k; simpl; [tauto |].
  destruct (root_le_Q _ _) eqn:Er.
  - specialize (IH (S k)).
    destruct (scan_items rng range_m noise position_ items (S k)) as [found k'].
    simpl in IH.
    destruct (Qltb noise (rng k)) eqn:En; simpl.
    + intros [[= <- <-] | H].
      * exists p0, k. split; [left; reflexivity |]. split; [reflexivity |].
        split; [apply in_range_test, Er |]. split; [lia |].
        apply Qltb_lt, En.
      * destruct (IH H) as (p & j & Hin & Hd & Hr & Hk & Hn).
        exists p, j. repeat split; auto. lia.
    + intros H. destruct (IH H) as (p & j & Hin & Hd & Hr & Hk & Hn).
      exists p, j. repeat split; auto. lia.
  - intros H. destruct (IH k H) as (p & j & Hin & Hd & Hr & Hk & Hn).
    exists p, j. repeat split; auto.
Qed.

(** When every product is in range and every draw exceeds the noise
    probability, the scan returns the whole catalogue, in its order. *)
Lemma scan_items_all (items : StoreMap) (k : nat) :
  (forall u p, In (u, p) items ->
     (euclid position_ (position p) <= Q2R range_m)%R) ->
  (forall i, noise < rng i)%Q ->
  fst (scan_items rng range_m noise position_ items k)
  = map (entry_of position_) items.
Proof.
  intros Hrange Hdraw. revert k.
  induction items as [| [u p] items IH]; intros k; simpl; [reflexivity |].
  rewrite (proj2 (in_range_test p)) by (apply (Hrange u); left; reflexivity).
  specialize (IH (fun u' p' H => Hrange u' p' (or_intror H)) (S k)).
  destruct (scan_items rng range_m noise position_ items (S k)) as [found k'].
  simpl in IH. rewrite (proj2 (Qltb_lt _ _) (Hdraw k)). simpl.
  rewrite IH. reflexivity.
Qed.

(** When no draw exceeds the noise probability the scan returns nothing. *)
Lemma scan_items_none (items : StoreMap) (k : nat) :
  (forall i, rng i <= noise)%Q ->
  fst (scan_items rng range_m noise position_ items k) = [].
Proof.
  intros Hdraw. revert k.
  induction items as [| [u p] items IH]; intros k; simpl; [reflexivity |].
  destruct (root_le_Q _ _); [| apply IH].
  specialize (IH (S k)).
  destruct (scan_items rng range_m noise position_ items (S k)) as [found k'].
  simpl in IH. rewrite (proj2 (Qltb_ge _ _) (Hdraw k)). exact IH.
Qed.
End Scan.




(** ** Step counts at a distance

    [plan_route] calls [meters_to_steps] on a distance.  On the square
    root of a perfect square the function on distances is the function on
    floats. *)

Section RoundSqrt.
Local Open Scope Q_scope.

Lemma Qfloor_unique (x : Q) (n : Z) :
  inject_Z n <= x -> x < inject_Z n + 1 -> Qfloor x = n.
Proof.
  intros Hlo Hhi. destruct (floor_bounds x) as [Flo Fhi].
  assert (inject_Z n < inject_Z (Qfloor x + 1)) as H1
    by (rewrite inject_Z_succ; lra).
  assert (inject_Z (Qfloor x) < inject_Z (n + 1)) as H2
    by (rewrite inject_Z_succ; lra).
  rewrite <- Zlt_Qlt in H1, H2. lia.
Qed.

Lemma Qfloor_nonneg (x : Q) : 0 <= x -> (0 <= Qfloor x)%Z.
Proof.
  intros H. apply (Qfloor_resp_le 0 x) in H. exact H.
Qed.

Lemma floor_sqrt_square (x : Q) : 0 <= x -> Z.sqrt (Qfloor (x * x)) = Qfloor x.
Proof.
  intros Hx. destruct (floor_bounds x) as [Flo Fhi].
  pose proof (Qfloor_nonneg x Hx) as Hn.
  pose proof Hn as Hn'. rewrite Zle_Qle in Hn'.
  change (inject_Z 0) with 0 in Hn'.
  apply Z.sqrt_unique. split.
  - rewrite <- (Qfloor_Z (Qfloor x * Qfloor x)).
    apply Qfloor_resp_le. rewrite inject_Z_mult. nra.
  - destruct (floor_bounds (x * x)) as [Slo Shi].
    rewrite Zlt_Qlt. unfold Z.succ. rewrite inject_Z_mult, inject_Z_succ. nra.
Qed.

Lemma round_sqrt_square (x : Q) : 0 <= x -> round_sqrt (x * x) = py_round x.
Proof.
  intros Hx. unfold round_sqrt, py_round. rewrite floor_sqrt_square by exact Hx.
  destruct (floor_bounds x) as [Flo Fhi].
  pose proof (Qfloor_nonneg x Hx) as Hn.
  pose proof Hn as Hn'. rewrite Zle_Qle in Hn'.
  change (inject_Z 0) with 0 in Hn'.
  destruct (Qcompare_spec (x * x)
              ((inject_Z (Qfloor x) + (1 # 2)) * (inject_Z (Qfloor x) + (1 # 2))))
    as [E1 | E1 | E1];
    destruct (Qcompare_spec (x - inject_Z (Qfloor x)) (1 # 2)) as [E2 | E2 | E2];
    try reflexivity; exfalso; nra.
Qed.

Lemma round_sqrt_comp (t t' : Q) : t == t' -> round_sqrt t = round_sqrt t'.
Proof.
  intros E. unfold round_sqrt. rewrite (Qfloor_comp _ _ E).
  rewrite (Qcompare_comp _ _ E _ _ (Qeq_refl _)). reflexivity.
Qed.

Lemma py_round_comp (x y : Q) : x == y -> py_round x = py_round y.
Proof.
  intros E. unfold py_round. rewrite (Qfloor_comp _ _ E).
  assert (x - inject_Z (Qfloor y) == y - inject_Z (Qfloor y)) as E' by (rewrite E; reflexivity).
  rewrite (Qcompare_comp _ _ E' _ _ (Qeq_refl _)). reflexivity.
Qed.

Lemma inject_Z_opp_pred (n : Z) : inject_Z (- n - 1) == - inject_Z n - 1.
Proof. unfold Qeq, inject_Z. simpl. lia. Qed.

Lemma py_round_opp (x : Q) : py_round (- x) = (- py_round x)%Z.
Proof.
  destruct (floor_bounds x) as [Flo Fhi].
  destruct (Qeq_dec x (inject_Z (Qfloor x))) as [E | NE].
  - assert (Qfloor (- x) = (- Qfloor x)%Z) as Hf.
    { apply Qfloor_unique; rewrite inject_Z_opp; lra. }
    unfold py_round. rewrite Hf.
    destruct (Qcompare_spec (- x - inject_Z (- Qfloor x)) (1 # 2)) as [E1 | E1 | E1];
      rewrite inject_Z_opp in E1; try (exfalso; lra).
    destruct (Qcompare_spec (x - inject_Z (Qfloor x)) (1 # 2)) as [E2 | E2 | E2];
      try (exfalso; lra). reflexivity.
  - assert (inject_Z (Qfloor x) < x) as Flo'.
    { destruct (Qlt_le_dec (inject_Z (Qfloor x)) x) as [H | H]; [exact H |].
      exfalso. apply NE. lra. }
    pose proof (inject_Z_opp_pred (Qfloor x)) as Hi.
    assert (Qfloor (- x) = (- Qfloor x - 1)%Z) as Hf.
    { apply Qfloor_unique; rewrite Hi; lra. }
    unfold py_round. rewrite Hf.
    destruct (Qcompare_spec (- x - inject_Z (- Qfloor x - 1)) (1 # 2)) as [E1 | E1 | E1];
      rewrite Hi in E1;
      destruct (Qcompare_spec (x - inject_Z (Qfloor x)) (1 # 2)) as [E2 | E2 | E2];
      try (exfalso; lra); try lia.
    replace (- Qfloor x - 1)%Z with (- (Qfloor x + 1))%Z by lia.
    rewrite Z.even_opp, Z.even_add. simpl.
    destruct (Z.even (Qfloor x)); simpl; lia.
Qed.

Lemma meters_to_steps_root_square (m step : Q) :
  0 <= m ->
  meters_to_steps_root (Root (m * m)) step = meters_to_steps m step.
Proof.
  intros Hm. unfold meters_to_steps_root, meters_to_steps. simpl.
  destruct (Qeq_bool step 0) eqn:Ez; [reflexivity |].
  assert (~ step == 0) as Hz.
  { intros E. apply Qeq_bool_iff in E. congruence. }
  f_equal. f_equal.
  destruct (Qle_bool 0 step) eqn:Es.
  - apply Qle_bool_iff in Es.
    assert (0 <= m / step) as Hx.
    { apply Qle_shift_div_l; lra. }
    rewrite <- (round_sqrt_square _ Hx). apply round_sqrt_comp. field. exact Hz.
  - apply Qle_bool_gt in Es.
    assert (0 <= - (m / step)) as Hx.
    { assert (m / step <= 0); [| lra].
      assert (m / step == (- m) / (- step)) as -> by (field; lra).
      apply Qle_shift_div_r; lra. }
    rewrite <- (Z.opp_involutive (py_round (m / step))), <- py_round_opp.
    f_equal. rewrite <- (round_sqrt_square _ Hx). apply round_sqrt_comp.
    field. exact Hz.
Qed.
End RoundSqrt.

(** ** The inline classifier of [mostrar_rota_visual] *)


Example direcao_de_small_vector :
  direcao_de (1 # 10) (2 # 10) = VireEsquerda /\
  direction_from_vector (1 # 10) (2 # 10) = EmFrente.
Proof. split; reflexivity. Qed.

(* ================================================================== *)
(** * Part III: the rest of the code                                  *)
(* ================================================================== *)

(** ** Saving and loading the list *)

Section SavedList.
Local Open Scope string_scope.

Lemma split_skip_space (c : ascii) (s : string) :
  is_space c = true -> split (String c s) = split s.
Proof. intros H. simpl. rewrite H. reflexivity. Qed.

Lemma append_empty_r (x : string) : x ++ "" = x.
Proof.
  induction x as [| c x IH]; [reflexivity |].
  rewrite append_cons, IH. reflexivity.
Qed.

(** A clean token in front of the end or of a space is the first token. *)
Lemma split_app_token (x rest : string) :
  x <> "" ->
  (forall c, In c (list_ascii_of_string x) -> is_space c = false) ->
  (rest = "" \/ exists c r, rest = String c r /\ is_space c = true) ->
  split (x ++ rest) = x :: split rest.
Proof.
  intros Hne Hx Hrest. induction x as [| c x IH]; [congruence |].
  assert (Hc : is_space c = false) by (apply Hx; left; reflexivity).
  assert (Hx' : forall c0, In c0 (list_ascii_of_string x) -> is_space c0 = false)
    by (intros c0 H0; apply Hx; right; exact H0).
  rewrite append_cons.
  destruct x as [| c1 x].
  - rewrite append_nil. simpl. rewrite Hc.
    destruct Hrest as [-> | (c' & r & -> & Hc')]; [reflexivity |].
    rewrite Hc'. reflexivity.
  - specialize (IH ltac:(discriminate) Hx').
    assert (Hc1 : is_space c1 = false) by (apply Hx'; left; reflexivity).
    change (split (String c (String c1 x ++ rest)))
      with (if is_space c then split (String c1 x ++ rest)
            else match String c1 x ++ rest with
                 | EmptyString => [String c EmptyString]
                 | String c' _ =>
                     if is_space c'
                     then String c EmptyString :: split (String c1 x ++ rest)
                     else match split (String c1 x ++ rest) with
                          | t :: ts => String c t :: ts
                          | [] => [String c EmptyString]
                          end
                 end).
    rewrite Hc, IH, append_cons, Hc1. reflexivity.
Qed.

Lemma replace_comma_clean (x : string) :
  (forall c, In c (list_ascii_of_string x) -> c <> ","%char) ->
  replace_comma x = x.
Proof.
  induction x as [| c x IH]; intros H; simpl; [reflexivity |].
  rewrite IH by (intros c0 H0; apply H; right; exact H0).
  destruct (Ascii.eqb_spec c ","%char) as [E | _]; [| reflexivity].
  exfalso. apply (H c); [left; reflexivity | exact E].
Qed.

Lemma replace_comma_app (a b : string) :
  replace_comma (a ++ b) = replace_comma a ++ replace_comma b.
Proof.
  induction a as [| c a IH]; [reflexivity |].
  rewrite append_cons. simpl. rewrite IH. reflexivity.
Qed.

(** The tokens of the text that joins clean tokens with ", " are the
    tokens. *)
Lemma split_join (l : list string) :
  Forall clean_token l ->
  split (replace_comma (join ", " l)) = l.
Proof.
  induction 1 as [| x l [Hne Hx] Hl IH]; [reflexivity |].
  assert (Hsp : forall c, In c (list_ascii_of_string x) -> is_space c = false)
    by (intros c Hc; apply Hx, Hc).
  assert (Hco : forall c, In c (list_ascii_of_string x) -> c <> ","%char)
    by (intros c Hc; apply Hx, Hc).
  destruct l as [| y l].
  - simpl. rewrite (replace_comma_clean x Hco).
    pose proof (split_app_token x "" Hne Hsp (or_introl eq_refl)) as H.
    rewrite append_empty_r in H. exact H.
  - change (join ", " (x :: y :: l)) with (x ++ ", " ++ join ", " (y :: l)).
    rewrite !replace_comma_app, (replace_comma_clean x Hco).
    change (replace_comma ", ") with "  ".
    rewrite split_app_token; [| exact Hne | exact Hsp |].
    + rewrite !append_cons, append_nil.
      rewrite !split_skip_space by reflexivity. rewrite IH. reflexivity.
    + right. eexists _, _. split; [reflexivity | reflexivity].
Qed.

Lemma parse_itens_clean (itens t : string) :
  In t (parse_itens itens) -> clean_token t /\ lower t = t.
Proof.
  rewrite parse_itens_eq. intros Hin.
  apply in_map_iff in Hin as (t0 & <- & Ht).
  destruct (split_tokens _ _ Ht) as [Hne Hc].
  split; [| apply lower_idem]. split; [apply lower_not_empty, Hne |].
  intros c Hcin. rewrite chars_lower in Hcin.
  apply in_map_iff in Hcin as (c0 & <- & Hc0).
  destruct (Hc c0 Hc0) as [Hsp Hrep]. split.
  - apply lower_char_not_space, Hsp.
  - apply lower_char_not_comma. exact (chars_replace_comma _ _ Hrep).
Qed.

Lemma parse_itens_join (itens : string) :
  parse_itens (join ", " (parse_itens itens)) = parse_itens itens.
Proof.
  rewrite (parse_itens_eq (join ", " (parse_itens itens))).
  rewrite split_join.
  - rewrite <- (map_id (parse_itens itens)) at 2.
    apply map_ext_in. intros t Ht. apply (parse_itens_clean itens t Ht).
  - apply Forall_forall. intros t Ht. apply list_elem_of_In in Ht.
    apply (parse_itens_clean itens t Ht).
Qed.

Lemma split_only_spaces (s : string) :
  (forall c, In c (list_ascii_of_string s) -> is_space c = true) ->
  split s = [].
Proof.
  induction s as [| c s IH]; intros H; [reflexivity |].
  rewrite split_skip_space by (apply H; left; reflexivity).
  apply IH. intros c0 H0. apply H. right. exact H0.
Qed.

Lemma replace_comma_separators (s : string) (c : ascii) :
  only_separators s ->
  In c (list_ascii_of_string (replace_comma s)) -> is_space c = true.
Proof.
  induction s as [| c0 s IH]; intros Hs; simpl; [tauto |].
  intros [<- | Hc].
  - destruct (Ascii.eqb_spec c0 ","%char) as [E | NE]; [reflexivity |].
    destruct (Hs c0 (or_introl eq_refl)) as [H | H]; [exact H | congruence].
  - apply IH; [| exact Hc]. intros c1 H1. apply Hs. right. exact H1.
Qed.
End SavedList.

(** X1.  What [guardar_lista_compras] stores for a text that is not blank
    is what [carregar_lista_compras] then returns, the catalogue file is
    left as it was, and saving the items again, joined with ", " as the
    report prints them, leaves the stored list unchanged. *)
Theorem guardar_carregar_round_trip (itens : string) (fs : Ficheiros) :
  strip itens <> ""%string ->
  exists lista : list string,
    fst (guardar_lista_compras itens fs) = Sucesso lista /\
    carregar_lista_compras (snd (guardar_lista_compras itens fs))
      = ListaCarregada lista /\
    ficheiro_localizacoes (snd (guardar_lista_compras itens fs))
      = ficheiro_localizacoes fs /\
    carregar_lista_compras
      (snd (guardar_lista_compras (join ", " lista)
              (snd (guardar_lista_compras itens fs))))
      = ListaCarregada lista.
Proof.
  intros Hblank. exists (parse_itens itens).
  unfold guardar_lista_compras at 1 2 3 5.
  rewrite (proj2 (is_empty_str_false _) Hblank). simpl.
  repeat split.
  unfold guardar_lista_compras.
  destruct (is_empty_str (strip (join ", " (parse_itens itens)))).
  - reflexivity.
  - simpl. rewrite parse_itens_join. reflexivity.
Qed.

Lemma guardar_carregar_round_trip_witness :
  exists lista : list string,
    fst (guardar_lista_compras "Leite, ovos  cafe" sem_ficheiros)
      = Sucesso lista /\
    carregar_lista_compras
      (snd (guardar_lista_compras "Leite, ovos  cafe" sem_ficheiros))
      = ListaCarregada lista /\
    ficheiro_localizacoes
      (snd (guardar_lista_compras "Leite, ovos  cafe" sem_ficheiros))
      = ficheiro_localizacoes sem_ficheiros /\
    carregar_lista_compras
      (snd (guardar_lista_compras (join ", " lista)
              (snd (guardar_lista_compras "Leite, ovos  cafe" sem_ficheiros))))
      = ListaCarregada lista.
Proof.
  apply (guardar_carregar_round_trip "Leite, ovos  cafe" sem_ficheiros).
  vm_compute. discriminate.
Defined.

(** X2.  A text made only of commas and white space, with at least one
    comma, is not refused: it is saved as the empty list, and the earlier
    list is lost. *)
Theorem guardar_only_separators (itens : string) (fs : Ficheiros) :
  only_separators itens ->
  strip itens <> ""%string ->
  guardar_lista_compras itens fs
  = (Sucesso [],
     {| ficheiro_lista := Some [];
        ficheiro_localizacoes := ficheiro_localizacoes fs |}).
Proof.
  intros Hsep Hblank. unfold guardar_lista_compras.
  rewrite (proj2 (is_empty_str_false _) Hblank).
  rewrite parse_itens_eq, split_only_spaces; [reflexivity |].
  intros c Hc. exact (replace_comma_separators itens c Hsep Hc).
Qed.

Lemma guardar_only_separators_witness :
  guardar_lista_compras " , ," ficheiros_leite
  = (Sucesso [],
     {| ficheiro_lista := Some [];
        ficheiro_localizacoes := ficheiro_localizacoes ficheiros_leite |}).
Proof.
  apply (guardar_only_separators " , ," ficheiros_leite).
  - intros c Hc. simpl in Hc.
    destruct Hc as [<- | [<- | [<- | [<- | []]]]];
      first [left; reflexivity | right; reflexivity].
  - vm_compute. discriminate.
Defined.

(** ** Locating the items of the list *)

Lemma contem_correspondencias (item : string) (catalogo : list Localizacao)
    (p : Localizacao) :
  In p (correspondencias item catalogo) <->
  In p catalogo /\ contem item (nome_produto p).
Proof. apply correspondencias_spec. Qed.

Lemma resultados_item_In (catalogo : list Localizacao) (item : string)
    (r : Resultado) :
  In r (resultados_item catalogo item) <->
  (r = NaoEncontrado item /\ correspondencias item catalogo = []) \/
  (exists p, In p (correspondencias item catalogo) /\
             r = Encontrado (local_de p)).
Proof.
  unfold resultados_item.
  destruct (correspondencias item catalogo) as [| p ps] eqn:E.
  - simpl. split.
    + intros [<- | []]. left. auto.
    + intros [[-> _] | (p & [] & _)]. left. reflexivity.
  - rewrite in_map_iff. split.
    + intros (q & <- & Hq). right. exists q. auto.
    + intros [[_ H] | (q & Hq & ->)]; [discriminate |]. exists q. auto.
Qed.

Lemma resultados_item_not_nil (catalogo : list Localizacao) (item : string) :
  (1 <= length (resultados_item catalogo item))%nat.
Proof.
  unfold resultados_item.
  destruct (correspondencias item catalogo); simpl; lia.
Qed.

Lemma resultados_lista_length (itens : list string)
    (catalogo : list Localizacao) :
  (length itens <= length (resultados_lista itens catalogo))%nat.
Proof.
  induction itens as [| item itens IH]; simpl; [lia |].
  rewrite length_app. pose proof (resultados_item_not_nil catalogo item). lia.
Qed.

(** X3.  With both files present, [obter_localizacoes_lista] accounts for
    every item and invents nothing: an item that no catalogue name
    contains gives one "not found" result with the item's text; any other
    item gives one located product for each catalogue entry whose name
    contains it; every result is one of these; so there are at least as
    many results as items. *)
Theorem obter_localizacoes_accounts (fs : Ficheiros) (itens : list string)
    (catalogo : list Localizacao) :
  ficheiro_lista fs = Some itens ->
  ficheiro_localizacoes fs = Some catalogo ->
  exists res : list Resultado,
    obter_localizacoes_lista fs = Sucesso res /\
    (forall item, In item itens ->
       (In (NaoEncontrado item) res /\
        forall p, In p catalogo -> ~ contem item (nome_produto p)) \/
       (exists p, In p catalogo /\ contem item (nome_produto p)) /\
       (forall p, In p catalogo -> contem item (nome_produto p) ->
          In (Encontrado (local_de p)) res)) /\
    (forall r, In r res ->
       (exists item, In item itens /\ r = NaoEncontrado item /\
          forall p, In p catalogo -> ~ contem item (nome_produto p)) \/
       (exists item p, In item itens /\ In p catalogo /\
          contem item (nome_produto p) /\ r = Encontrado (local_de p))) /\
    (length itens <= length res)%nat.
Proof.
  intros Hl Hc. exists (resultados_lista itens catalogo).
  unfold obter_localizacoes_lista. rewrite Hl, Hc.
  split; [reflexivity |].
  assert (Hnil : forall item, correspondencias item catalogo = [] ->
            forall p, In p catalogo -> ~ contem item (nome_produto p)).
  { intros item E p Hp Hcont.
    assert (In p (correspondencias item catalogo)) as H
      by (apply contem_correspondencias; auto).
    rewrite E in H. destruct H. }
  split; [| split; [| apply resultados_lista_length]].
  - intros item Hitem.
    destruct (correspondencias item catalogo) as [| q qs] eqn:E.
    + left. split; [| exact (Hnil item E)].
      apply in_flat_map. exists item. split; [exact Hitem |].
      apply resultados_item_In. left. auto.
    + right. split.
      * exists q. apply contem_correspondencias. rewrite E. left. reflexivity.
      * intros p Hp Hcont. apply in_flat_map. exists item.
        split; [exact Hitem |]. apply resultados_item_In. right.
        exists p. split; [| reflexivity].
        apply contem_correspondencias. auto.
  - intros r Hr. apply in_flat_map in Hr as (item & Hitem & Hr).
    apply resultados_item_In in Hr as [[-> E] | (p & Hp & ->)].
    + left. exists item. split; [exact Hitem |]. split; [reflexivity |].
      exact (Hnil item E).
    + right. apply contem_correspondencias in Hp as [Hp Hcont].
      exists item, p. auto.
Qed.

Lemma obter_localizacoes_accounts_witness :
  exists res : list Resultado,
    obter_localizacoes_lista ficheiros_leite = Sucesso res /\
    (forall item, In item ["soja"; "pao"; "cafe"]%string ->
       (In (NaoEncontrado item) res /\
        forall p, In p catalogo_leite -> ~ contem item (nome_produto p)) \/
       (exists p, In p catalogo_leite /\ contem item (nome_produto p)) /\
       (forall p, In p catalogo_leite -> contem item (nome_produto p) ->
          In (Encontrado (local_de p)) res)) /\
    (forall r, In r res ->
       (exists item, In item ["soja"; "pao"; "cafe"]%string /\
          r = NaoEncontrado item /\
          forall p, In p catalogo_leite -> ~ contem item (nome_produto p)) \/
       (exists item p, In item ["soja"; "pao"; "cafe"]%string /\
          In p catalogo_leite /\
          contem item (nome_produto p) /\ r = Encontrado (local_de p))) /\
    (length ["soja"; "pao"; "cafe"]%string <= length res)%nat.
Proof.
  apply (obter_localizacoes_accounts ficheiros_leite
           ["soja"; "pao"; "cafe"]%string catalogo_leite); reflexivity.
Defined.

(** ** What the route tools answer *)

Lemma matched_In (itens : list string) (catalogo : list Localizacao)
    (l : Local) :
  In l (com_coordenadas (resultados_lista itens catalogo)) <->
  exists item p, In item itens /\ In p catalogo /\
                 contem item (nome_produto p) /\ l = local_de p.
Proof.
  rewrite com_coordenadas_In. unfold resultados_lista. rewrite in_flat_map.
  split.
  - intros (item & Hitem & Hr).
    apply resultados_item_In in Hr as [[H _] | (p & Hp & H)]; [discriminate |].
    injection H as ->. apply contem_correspondencias in Hp as [Hp Hc].
    exists item, p. auto.
  - intros (item & p & Hitem & Hp & Hc & ->). exists item.
    split; [exact Hitem |]. apply resultados_item_In. right. exists p.
    split; [apply contem_correspondencias; auto | reflexivity].
Qed.

Lemma cobre_not_nil {A : Type} (nome : A -> string) (x : A)
    (produtos r : list A) :
  cobre nome (x :: produtos) r -> r <> [].
Proof.
  intros (_ & _ & Hall & _) ->.
  exact (Hall x (or_introl eq_refl)).
Qed.


(** X5.  Every stop of the route of [gerar_rota_otimizada] carries the
    data of a catalogue entry whose name contains an item of the list, and
    the name of every such entry is on the route, once. *)
Theorem gerar_rota_stops (fs : Ficheiros) (itens : list string)
    (catalogo : list Localizacao) (r : list Local) :
  ficheiro_lista fs = Some itens ->
  ficheiro_localizacoes fs = Some catalogo ->
  gerar_rota_otimizada fs = Some (Sucesso r) ->
  (forall l, In l r ->
     exists item p, In item itens /\ In p catalogo /\
                    contem item (nome_produto p) /\ l = local_de p) /\
  (forall item p, In item itens -> In p catalogo ->
     contem item (nome_produto p) -> In (nome_produto p) (map produto r)) /\
  NoDup (map produto r).
Proof.
  intros Hl Hc Hr.
  unfold gerar_rota_otimizada, obter_localizacoes_lista in Hr.
  rewrite Hl, Hc in Hr.
  destruct (com_coordenadas (resultados_lista itens catalogo))
    as [| primeiro resto] eqn:Hm.
  { unfold gerar_rota_de in Hr. rewrite Hm in Hr. discriminate. }
  destruct (gerar_rota_cobre (resultados_lista itens catalogo))
    as (r' & Hr' & Hnd & Hin & Hall & _); [rewrite Hm; discriminate |].
  assert (r' = r) as -> by congruence.
  split; [| split; [| exact Hnd]].
  - intros l Hlr. apply matched_In, Hin, Hlr.
  - intros item p Hitem Hp Hcont.
    apply (Hall (local_de p)). apply matched_In. exists item, p. auto.
Qed.

Lemma gerar_rota_stops_witness :
  (forall l, In l [local_de (loc "leite de soja" 6 1); local_de (loc "Cafe" 3 4)] ->
     exists item p, In item ["soja"; "pao"; "cafe"]%string /\
                    In p catalogo_leite /\
                    contem item (nome_produto p) /\ l = local_de p) /\
  (forall item p, In item ["soja"; "pao"; "cafe"]%string ->
     In p catalogo_leite ->
     contem item (nome_produto p) ->
     In (nome_produto p)
        (map produto [local_de (loc "leite de soja" 6 1);
                      local_de (loc "Cafe" 3 4)])) /\
  NoDup (map produto [local_de (loc "leite de soja" 6 1);
                      local_de (loc "Cafe" 3 4)]).
Proof.
  apply (gerar_rota_stops ficheiros_leite ["soja"; "pao"; "cafe"]%string
           catalogo_leite); [reflexivity | reflexivity |].
  vm_compute. reflexivity.
Defined.

(** ** The visual route *)

Lemma instrucoes_de_cons (p1 p2 : Localizacao) (r : list Localizacao) :
  instrucoes_de (p1 :: p2 :: r)
  = {| i_direcao :=
         direcao_de (coordenada_x p2 - coordenada_x p1)
                    (coordenada_y p2 - coordenada_y p1);
       i_distancia :=
         Root ((coordenada_x p2 - coordenada_x p1)
               * (coordenada_x p2 - coordenada_x p1)
               + (coordenada_y p2 - coordenada_y p1)
                 * (coordenada_y p2 - coordenada_y p1));
       i_destino := nome_produto p2 |} :: instrucoes_de (p2 :: r).
Proof. reflexivity. Qed.

Lemma instrucoes_de_length (r : list Localizacao) :
  length (instrucoes_de r) = pred (length r).
Proof.
  induction r as [| p1 r IH]; [reflexivity |].
  destruct r as [| p2 r]; [reflexivity |].
  rewrite instrucoes_de_cons. cbn [length]. rewrite IH. reflexivity.
Qed.

Lemma instrucoes_de_lookup (r : list Localizacao) (i : nat)
    (p q : Localizacao) :
  r !! i = Some p -> r !! S i = Some q ->
  exists ins : instrucao,
    instrucoes_de r !! i = Some ins /\
    i_destino ins = nome_produto q /\
    i_direcao ins = direcao_de (coordenada_x q - coordenada_x p)
                               (coordenada_y q - coordenada_y p) /\
    root_val (i_distancia ins) = euclid (pos_localizacao p) (pos_localizacao q).
Proof.
  revert i. induction r as [| p1 r IH]; intros i Hp Hq; [discriminate |].
  destruct r as [| p2 r]; [destruct i; discriminate |].
  rewrite instrucoes_de_cons.
  destruct i as [| i].
  - injection Hp as ->. injection Hq as ->.
    eexists. split; [reflexivity |]. simpl.
    split; [reflexivity |]. split; [reflexivity |].
    unfold root_val, euclid. simpl. f_equal.
    rewrite Q2R_plus, !Q2R_mult, !Q2R_minus. ring.
  - destruct (IH i Hp Hq) as (ins & Hi & H). exists ins. split; [| exact H].
    exact Hi.
Qed.

Lemma mostrar_rota_sucesso (fs : Ficheiros) (ins : list instrucao)
    (r : list Localizacao) :
  mostrar_rota_visual fs = Some (Sucesso (ins, r)) ->
  exists itens catalogo,
    ficheiro_lista fs = Some itens /\
    ficheiro_localizacoes fs = Some catalogo /\
    ins = instrucoes_de r /\
    selecionados (map (fun i => strip (lower i)) itens) catalogo <> [] /\
    cobre nome_produto
          (selecionados (map (fun i => strip (lower i)) itens) catalogo) r.
Proof.
  unfold mostrar_rota_visual. intros H.
  destruct (ficheiro_lista fs) as [itens |]; [| discriminate].
  destruct (ficheiro_localizacoes fs) as [catalogo |]; [| discriminate].
  exists itens, catalogo.
  destruct (selecionados _ catalogo) as [| primeiro resto]; [discriminate |].
  destruct (rota_vizinho_correct nome_produto pos_localizacao primeiro resto)
    as (r' & Hr' & _ & _ & Hcobre).
  rewrite Hr' in H. simpl in H. injection H as <- <-.
  repeat split; try apply Hcobre. discriminate.
Qed.

(** X6.  [mostrar_rota_visual] gives one instruction for each leg of its
    route, in order: the instruction of a leg names the product at the end
    of the leg, carries the distance between the two stops, and its
    direction is the sector of the vector from the first stop to the
    second. *)
Theorem mostrar_rota_instrucoes (fs : Ficheiros) (ins : list instrucao)
    (r : list Localizacao) :
  mostrar_rota_visual fs = Some (Sucesso (ins, r)) ->
  r <> [] /\
  S (length ins) = length r /\
  forall (i : nat) (p q : Localizacao),
    r !! i = Some p -> r !! S i = Some q ->
    exists leg : instrucao,
      ins !! i = Some leg /\
      i_destino leg = nome_produto q /\
      i_direcao leg = direcao_de (coordenada_x q - coordenada_x p)
                                 (coordenada_y q - coordenada_y p) /\
      root_val (i_distancia leg)
        = euclid (pos_localizacao p) (pos_localizacao q).
Proof.
  intros H.
  destruct (mostrar_rota_sucesso fs ins r H)
    as (itens & catalogo & _ & _ & -> & Hne & Hcobre).
  assert (Hr : r <> []).
  { destruct (selecionados _ catalogo) as [| x sel]; [congruence |].
    exact (cobre_not_nil _ _ _ _ Hcobre). }
  split; [exact Hr |]. split.
  - rewrite instrucoes_de_length. destruct r; [congruence | reflexivity].
  - intros i p q. apply instrucoes_de_lookup.
Qed.

Lemma mostrar_rota_instrucoes_witness :
  [loc "Cafe" 3 4; loc "leite de soja" 6 1] <> [] /\
  S (length (instrucoes_de [loc "Cafe" 3 4; loc "leite de soja" 6 1]))
    = length [loc "Cafe" 3 4; loc "leite de soja" 6 1] /\
  forall (i : nat) (p q : Localizacao),
    [loc "Cafe" 3 4; loc "leite de soja" 6 1] !! i = Some p ->
    [loc "Cafe" 3 4; loc "leite de soja" 6 1] !! S i = Some q ->
    exists leg : instrucao,
      instrucoes_de [loc "Cafe" 3 4; loc "leite de soja" 6 1] !! i
        = Some leg /\
      i_destino leg = nome_produto q /\
      i_direcao leg = direcao_de (coordenada_x q - coordenada_x p)
                                 (coordenada_y q - coordenada_y p) /\
      root_val (i_distancia leg)
        = euclid (pos_localizacao p) (pos_localizacao q).
Proof.
  apply (mostrar_rota_instrucoes ficheiros_leite).
  vm_compute. reflexivity.
Defined.

(** ** The two direction classifiers *)

(** X7.  Unless [direction_from_vector] answers 'em frente' for a vector
    near zero, the two classifiers put a vector in the same sector:
    'direita' with 'siga em frente', 'frente' with 'vire a esquerda',
    'tras' with 'vire a direita', 'esquerda' with 'inverta a direcao'. *)
Theorem classifiers_same_sector (dx dy : Q) :
  direction_from_vector dx dy = EmFrente \/
  mesma_direcao (direction_from_vector dx dy) (direcao_de dx dy).
Proof.
  unfold direction_from_vector, direcao_de.
  destruct (Qltb (Qabs dx) near_zero_threshold
            && Qltb (Qabs dy) near_zero_threshold); [left; reflexivity |].
  right. angle_facts (Atan2 dy dx); simpl; exact I.
Qed.

(** ** The two route tools on a saved list *)

Lemma cobre_names {A : Type} (nome : A -> string) (produtos r : list A)
    (n : string) :
  cobre nome produtos r ->
  In n (map nome r) <-> In n (map nome produtos).
Proof.
  intros (_ & Hin & Hall & _). rewrite !in_map_iff. split.
  - intros (p & <- & Hp). exists p. auto.
  - intros (p & <- & Hp). apply in_map_iff, Hall, Hp.
Qed.

Lemma selecionados_In (itens : list string) (catalogo : list Localizacao)
    (p : Localizacao) :
  (forall item, In item itens -> strip (lower item) = lower item) ->
  In p (selecionados (map (fun i => strip (lower i)) itens) catalogo) <->
  In p catalogo /\ exists item, In item itens /\ contem item (nome_produto p).
Proof.
  intros Hclean. unfold selecionados. rewrite filter_In, existsb_exists.
  split; intros [Hp H]; (split; [exact Hp |]).
  - destruct H as (x & Hx & Hin). apply in_map_iff in Hx as (item & <- & Hitem).
    exists item. split; [exact Hitem |].
    rewrite (Hclean item Hitem) in Hin. apply str_in_app, Hin.
  - destruct H as (item & Hitem & Hc). exists (strip (lower item)).
    split; [apply in_map_iff; exists item; auto |].
    rewrite (Hclean item Hitem). apply str_in_app, Hc.
Qed.

Lemma parse_itens_strip_lower (texto item : string) :
  In item (parse_itens texto) -> strip (lower item) = lower item.
Proof.
  intros H. destruct (parse_itens_clean texto item H) as [[_ Hc] ->].
  apply strip_no_space. intros c Hin. apply Hc, Hin.
Qed.

Lemma gerar_rota_sucesso (fs : Ficheiros) (r : list Local) :
  gerar_rota_otimizada fs = Some (Sucesso r) ->
  exists itens catalogo,
    ficheiro_lista fs = Some itens /\
    ficheiro_localizacoes fs = Some catalogo /\
    cobre produto (com_coordenadas (resultados_lista itens catalogo)) r.
Proof.
  unfold gerar_rota_otimizada, obter_localizacoes_lista. intros H.
  destruct (ficheiro_lista fs) as [itens |]; [| discriminate].
  destruct (ficheiro_localizacoes fs) as [catalogo |]; [| discriminate].
  exists itens, catalogo. split; [reflexivity |]. split; [reflexivity |].
  destruct (com_coordenadas (resultados_lista itens catalogo))
    as [| primeiro resto] eqn:Hm.
  { unfold gerar_rota_de in H. rewrite Hm in H. discriminate. }
  destruct (gerar_rota_cobre (resultados_lista itens catalogo))
    as (r' & Hr' & Hc); [rewrite Hm; discriminate |].
  rewrite Hm in Hc. congruence.
Qed.



(** ** Distances *)

Section Metric.
Local Open Scope R_scope.

Lemma euclid_sym (a b : point) : euclid a b = euclid b a.
Proof. unfold euclid. f_equal. ring. Qed.

Lemma euclid_nonneg (a b : point) : 0 <= euclid a b.
Proof. unfold euclid. apply sqrt_pos. Qed.

Lemma euclid_zero (a b : point) :
  euclid a b = 0 <-> Q2R a.1 = Q2R b.1 /\ Q2R a.2 = Q2R b.2.
Proof.
  unfold euclid. split.
  - intros H.
    set (u := Q2R a.1 - Q2R b.1) in *. set (v := Q2R a.2 - Q2R b.2) in *.
    pose proof (Rle_0_sqr u) as Pu. pose proof (Rle_0_sqr v) as Pv.
    unfold Rsqr in Pu, Pv.
    apply sqrt_eq_0 in H; [| lra].
    assert (Hu : u * u = 0) by lra. assert (Hv : v * v = 0) by lra.
    apply Rmult_integral in Hu. apply Rmult_integral in Hv.
    unfold u, v in *. split; lra.
  - intros [-> ->].
    replace ((Q2R b.1 - Q2R b.1) * (Q2R b.1 - Q2R b.1)
             + (Q2R b.2 - Q2R b.2) * (Q2R b.2 - Q2R b.2)) with 0 by ring.
    apply sqrt_0.
Qed.

Lemma minkowski (u1 u2 v1 v2 : R) :
  sqrt ((u1 + v1) * (u1 + v1) + (u2 + v2) * (u2 + v2))
  <= sqrt (u1 * u1 + u2 * u2) + sqrt (v1 * v1 + v2 * v2).
Proof.
  pose proof (sqrt_cauchy u1 u2 v1 v2) as Hc. unfold Rsqr in Hc.
  set (U := sqrt (u1 * u1 + u2 * u2)) in *.
  set (V := sqrt (v1 * v1 + v2 * v2)) in *.
  assert (HU : 0 <= U) by apply sqrt_pos.
  assert (HV : 0 <= V) by apply sqrt_pos.
  assert (HU2 : U * U = u1 * u1 + u2 * u2) by (apply sqrt_sqrt; nra).
  assert (HV2 : V * V = v1 * v1 + v2 * v2) by (apply sqrt_sqrt; nra).
  rewrite <- (sqrt_square (U + V)) by lra.
  apply sqrt_le_1_alt. nra.
Qed.

Lemma euclid_triangle (a b c : point) : euclid a c <= euclid a b + euclid b c.
Proof.
  unfold euclid.
  replace (Q2R a.1 - Q2R c.1) with ((Q2R a.1 - Q2R b.1) + (Q2R b.1 - Q2R c.1))
    by ring.
  replace (Q2R a.2 - Q2R c.2) with ((Q2R a.2 - Q2R b.2) + (Q2R b.2 - Q2R c.2))
    by ring.
  apply minkowski.
Qed.
End Metric.


(** ** One step *)

Lemma py_round_le_1 (x : Q) : (py_round x <= 1)%Z <-> (x < 3 # 2)%Q.
Proof.
  destruct (floor_bounds x) as [Flo Fhi].
  pose proof (py_round_floor x) as Hr.
  split.
  - intros H.
    destruct (Z_lt_le_dec (Qfloor x) 1) as [Hf | Hf].
    + assert (inject_Z (Qfloor x + 1) <= inject_Z 1)%Q as Hi
        by (rewrite <- Zle_Qle; lia).
      rewrite inject_Z_succ in Hi. change (inject_Z 1) with 1%Q in Hi. lra.
    + assert (Qfloor x = 1%Z) as E.
      { unfold py_round in H.
        destruct (x - inject_Z (Qfloor x) ?= 1 # 2)%Q;
          [destruct (Z.even (Qfloor x)) |..]; lia. }
      unfold py_round in H. rewrite E in H, Flo, Fhi.
      change (inject_Z 1) with 1%Q in *.
      destruct (Qcompare_spec (x - 1) (1 # 2)) as [C | C | C];
        simpl in H; try lia. lra.
  - intros H.
    destruct (Z_lt_le_dec (Qfloor x) 1) as [Hf | Hf]; [lia |].
    assert (inject_Z (Qfloor x) < inject_Z 2)%Q as Hi
      by (change (inject_Z 2) with 2%Q; lra).
    rewrite <- Zlt_Qlt in Hi.
    assert (Qfloor x = 1%Z) as E by lia.
    unfold py_round. rewrite E. change (inject_Z 1) with 1%Q.
    destruct (Qcompare_spec (x - 1) (1 # 2)) as [C | C | C];
      try lia; exfalso; lra.
Qed.



(** ** The store *)

Lemma dict_set_keys (k : string) (v : Product) (d : StoreMap) :
  (In k (map fst d) -> map fst (dict_set k v d) = map fst d) /\
  (~ In k (map fst d) -> map fst (dict_set k v d) = map fst d ++ [k]).
Proof.
  induction d as [| [k' v'] d [IH1 IH2]]; simpl.
  - split; [intros [] | reflexivity].
  - destruct (String.eqb_spec k' k) as [-> | NE]; simpl.
    + split; [reflexivity | intros H; exfalso; apply H; left; reflexivity].
    + split; intros H.
      * rewrite IH1; [reflexivity |]. destruct H; [congruence | assumption].
      * rewrite IH2; [reflexivity |]. intros H'. apply H. right. exact H'.
Qed.

Lemma dict_set_In (k : string) (v : Product) (d : StoreMap)
    (k' : string) (v' : Product) :
  NoDup (map fst d) ->
  In (k', v') (dict_set k v d) <->
  (k' = k /\ v' = v) \/ (k' <> k /\ In (k', v') d).
Proof.
  induction d as [| [k0 v0] d IH]; simpl; intros Hnd.
  - split.
    + intros [[= <- <-] | []]. left. auto.
    + intros [[-> ->] | [_ []]]. left. reflexivity.
  - apply NoDup_cons in Hnd as [Hk0 Hnd].
    destruct (String.eqb_spec k0 k) as [-> | NE]; simpl.
    + split.
      * intros [[= <- <-] | H]; [left; auto |].
        right. split; [| right; exact H].
        intros ->. apply Hk0. apply list_elem_of_In.
        apply (in_map fst) in H. exact H.
      * intros [[-> ->] | [Hne [[= <- <-] | H]]]; [left; reflexivity | | ].
        -- congruence.
        -- right. exact H.
    + rewrite (IH Hnd). split.
      * intros [[= <- <-] | [[-> ->] | [Hne H]]]; auto.
      * intros [[-> ->] | [Hne [[= <- <-] | H]]]; auto.
Qed.

(** X11.  [add_product] keeps the store well formed, one entry per
    identifier holding the product with that identifier; afterwards the
    identifier maps to the new product and every other entry is as
    before; a known identifier is overwritten in place, a new one is
    added at the end. *)
Theorem add_product_store_ok (sm : StoreMap) (u n : string) (pos : point)
    (lvl : Z) :
  store_ok sm ->
  store_ok (add_product sm u n pos lvl) /\
  (forall k p, In (k, p) (add_product sm u n pos lvl) <->
     (k = u /\ p = mkProduct u n pos lvl) \/ (k <> u /\ In (k, p) sm)) /\
  (In u (map fst sm) ->
   map fst (add_product sm u n pos lvl) = map fst sm) /\
  (~ In u (map fst sm) ->
   map fst (add_product sm u n pos lvl) = map fst sm ++ [u]).
Proof.
  intros [Hnd Huid]. unfold add_product.
  assert (HIn := fun k p => dict_set_In u (mkProduct u n pos lvl) sm k p Hnd).
  destruct (dict_set_keys u (mkProduct u n pos lvl) sm) as [Hk1 Hk2].
  split; [| split; [exact HIn | split; assumption]].
  split.
  - destruct (in_dec string_dec u (map fst sm)) as [Hk | Hk].
    + rewrite (Hk1 Hk). exact Hnd.
    + rewrite (Hk2 Hk).
      apply NoDup_app. split; [exact Hnd |]. split; [| apply NoDup_singleton].
      intros x Hx Hx'. apply list_elem_of_singleton in Hx'. subst x.
      apply Hk, list_elem_of_In, Hx.
  - intros k p Hkp. apply HIn in Hkp as [[-> ->] | [_ H]]; [reflexivity |].
    exact (Huid k p H).
Qed.

Lemma store_ok_nil : store_ok [].
Proof. split; [apply NoDup_nil_2 | intros k p []]. Qed.

Lemma store_ok_linha : store_ok store_linha.
Proof.
  split.
  - apply (bool_decide_unpack _). vm_compute. exact I.
  - intros k p [[= <- <-] | [[= <- <-] | [[= <- <-] | []]]]; reflexivity.
Qed.

Lemma add_product_store_ok_witness :
  store_ok (add_product store_linha "a" "um litro" origem 2) /\
  (forall k p, In (k, p) (add_product store_linha "a" "um litro" origem 2) <->
     (k = "a"%string /\ p = mkProduct "a" "um litro" origem 2)
     \/ (k <> "a"%string /\ In (k, p) store_linha)) /\
  (In "a"%string (map fst store_linha) ->
   map fst (add_product store_linha "a" "um litro" origem 2)
   = map fst store_linha) /\
  (~ In "a"%string (map fst store_linha) ->
   map fst (add_product store_linha "a" "um litro" origem 2)
   = map fst store_linha ++ ["a"%string]).
Proof.
  apply (add_product_store_ok store_linha "a" "um litro" origem 2).
  exact store_ok_linha.
Defined.

(** X12.  After [add_product], [find_by_name] finds a product under the
    new name, in any letter case; it is the new product when no product
    with another identifier has that name, letter case ignored. *)
Theorem find_by_name_after_add (sm : StoreMap) (u n n' : string)
    (pos : point) (lvl : Z) :
  store_ok sm ->
  lower n' = lower n ->
  (exists p, find_by_name (add_product sm u n pos lvl) n' = Some p /\
             lower (name p) = lower n) /\
  ((forall k p, In (k, p) sm -> k <> u -> lower (name p) <> lower n) ->
   find_by_name (add_product sm u n pos lvl) n'
   = Some (mkProduct u n pos lvl)).
Proof.
  intros Hok Hn.
  destruct (add_product_store_ok sm u n pos lvl Hok) as (_ & HIn & _).
  assert (Hnew : In (mkProduct u n pos lvl)
                    (map snd (add_product sm u n pos lvl))).
  { apply in_map_iff. exists (u, mkProduct u n pos lvl).
    split; [reflexivity |]. apply HIn. left. auto. }
  unfold find_by_name.
  pose proof (find_first_such
                (fun q => String.eqb (lower (name q)) (lower n'))
                (map snd (add_product sm u n pos lvl))) as Hf.
  destruct (List.find _ _) as [p |].
  - destruct Hf as (l1 & l2 & Hl & Hp & _). apply String.eqb_eq in Hp.
    split; [exists p; split; [reflexivity | congruence] |].
    intros Hother. f_equal.
    assert (In p (map snd (add_product sm u n pos lvl))) as Hin
      by (rewrite Hl; apply in_or_app; right; left; reflexivity).
    apply in_map_iff in Hin as ([k q] & <- & Hkq). simpl in *.
    apply HIn in Hkq as [[_ ->] | [Hne Hq]]; [reflexivity |].
    exfalso. apply (Hother k q Hq Hne). congruence.
  - exfalso. specialize (Hf _ Hnew). simpl in Hf.
    apply String.eqb_neq in Hf. congruence.
Qed.

Lemma find_by_name_after_add_witness :
  (exists p,
     find_by_name (add_product store_linha "d" "Quatro" origem 1) "QUATRO"
     = Some p /\
     lower (name p) = lower "Quatro") /\
  ((forall k p, In (k, p) store_linha -> k <> "d"%string ->
      lower (name p) <> lower "Quatro") ->
   find_by_name (add_product store_linha "d" "Quatro" origem 1) "QUATRO"
   = Some (mkProduct "d" "Quatro" origem 1)).
Proof.
  apply (find_by_name_after_add store_linha "d" "Quatro" "QUATRO" origem 1).
  - exact store_ok_linha.
  - reflexivity.
Defined.

(** ** Products near a position *)

Lemma StronglySorted_impl_In {A : Type} (R1 R2 : A -> A -> Prop)
    (l : list A) :
  (forall a b, In a l -> In b l -> R1 a b -> R2 a b) ->
  StronglySorted R1 l -> StronglySorted R2 l.
Proof.
  intros Himp Hs. induction Hs as [| a l Hs IH Ha]; constructor.
  - apply IH. intros x y Hx Hy. apply Himp; right; assumption.
  - apply Forall_forall. intros b Hb.
    apply list_elem_of_In in Hb.
    apply Himp; [left; reflexivity | right; exact Hb |].
    rewrite Forall_forall in Ha. apply Ha, list_elem_of_In, Hb.
Qed.

Lemma within_radius_In (sm : StoreMap) (estimated_pos : point) (radius : Q)
    (p : Product) (d : root) :
  In (p, d)
     (flat_map (fun p =>
                  let d := distance estimated_pos (position p) in
                  if root_le_Q d radius then [(p, d)] else [])
               (map snd sm)) <->
  In p (map snd sm) /\ d = distance estimated_pos (position p) /\
  (euclid estimated_pos (position p) <= Q2R radius)%R.
Proof.
  rewrite in_flat_map. split.
  - intros (q & Hq & Hin). simpl in Hin.
    destruct (root_le_Q _ _) eqn:E; [| destruct Hin].
    destruct Hin as [[= <- <-] | []].
    split; [exact Hq |]. split; [reflexivity |].
    apply in_range_test, E.
  - intros (Hp & -> & Hr). exists p. split; [exact Hp |]. simpl.
    rewrite (proj2 (in_range_test _ _ _) Hr). left. reflexivity.
Qed.

Lemma nearest_product_tag_In (sm : StoreMap) (estimated_pos : point)
    (radius : Q) (p : Product) (d : root) :
  In (p, d) (nearest_product_tag sm estimated_pos radius) <->
  In p (map snd sm) /\ d = distance estimated_pos (position p) /\
  (euclid estimated_pos (position p) <= Q2R radius)%R.
Proof.
  unfold nearest_product_tag. rewrite <- within_radius_In.
  rewrite <- !list_elem_of_In. rewrite sort_by_perm. reflexivity.
Qed.


(** ** The scan and the catalogue *)

Section ScanOrder.
Context (rng : nat -> Q) (range_m noise : Q) (position_ : point).

Lemma scan_items_sublist (items : StoreMap) (k : nat) :
  sublist (fst (scan_items rng range_m noise position_ items k))
          (map (entry_of position_) (em_alcance range_m position_ items)).
Proof.
  revert k. induction items as [| [u p] items IH]; intros k; simpl.
  - constructor.
  - destruct (root_le_Q _ _) eqn:E; [| apply IH].
    specialize (IH (S k)).
    destruct (scan_items rng range_m noise position_ items (S k)) as [found k'].
    simpl in *. destruct (Qltb noise (rng k)).
    + apply sublist_skip. exact IH.
    + apply sublist_cons. exact IH.
Qed.

Lemma scan_items_draws (items : StoreMap) (k : nat) :
  snd (scan_items rng range_m noise position_ items k)
  = (k + length (em_alcance range_m position_ items))%nat.
Proof.
  revert k. induction items as [| [u p] items IH]; intros k; simpl; [lia |].
  destruct (root_le_Q _ _) eqn:E; [| apply IH].
  specialize (IH (S k)).
  destruct (scan_items rng range_m noise position_ items (S k)) as [found k'].
  simpl in *. destruct (Qltb noise (rng k)); simpl; lia.
Qed.
End ScanOrder.

(** X14.  A scan keeps the order of the catalogue: what it returns is the
    list of the entries in range with some of them left out.  It makes one
    draw for each product in range and none for a product out of range. *)
Theorem scan_order_and_draws (r : RFIDReader) (position_ : point)
    (rng : nat -> Q) (k : nat) :
  sublist (fst (scan r position_ rng k))
          (map (entry_of position_)
               (em_alcance (range r) position_ (store_map r))) /\
  snd (scan r position_ rng k)
  = (k + length (em_alcance (range r) position_ (store_map r)))%nat /\
  (length (fst (scan r position_ rng k)) <= length (store_map r))%nat.
Proof.
  unfold scan. split; [apply scan_items_sublist |].
  split; [apply scan_items_draws |].
  pose proof (sublist_length _ _
                (scan_items_sublist rng (range r) (noise_prob r) position_
                   (store_map r) k)) as H.
  rewrite length_map in H. unfold em_alcance in H.
  pose proof (filter_length_le
                (fun up => root_le_Q (distance position_ (position up.2))
                                     (range r)) (store_map r)).
  lia.
Qed.

(** X15.  What a scan returns, [nearest_product_tag] with the range as
    radius returns too: every scanned identifier is the key of a product
    that is in that list with the same distance. *)
Theorem scan_within_nearest (r : RFIDReader) (position_ : point)
    (rng : nat -> Q) (k : nat) (u : string) (d : root) :
  In (u, d) (fst (scan r position_ rng k)) ->
  exists p : Product,
    In (u, p) (store_map r) /\
    In (p, d) (nearest_product_tag (store_map r) position_ (range r)).
Proof.
  unfold scan. intros H.
  destruct (scan_items_sound _ _ _ _ _ _ _ _ H) as (p & j & Hin & -> & Hr & _).
  exists p. split; [exact Hin |].
  apply nearest_product_tag_In. split; [| split; [reflexivity | exact Hr]].
  apply in_map_iff. exists (u, p). auto.
Qed.

Lemma scan_within_nearest_witness :
  exists p : Product,
    In ("c"%string, p) (store_map leitor_sem_ruido) /\
    In (p, distance origem (position prod_tres))
       (nearest_product_tag (store_map leitor_sem_ruido) origem
          (range leitor_sem_ruido)).
Proof.
  apply (scan_within_nearest leitor_sem_ruido origem sorteio_meio 0
           "c"%string (distance origem (position prod_tres))).
  left. reflexivity.
Defined.

(** ** The confirmation device at the shelf *)

Lemma distance_self_radicand (a : point) : (radicand (distance a a) == 0)%Q.
Proof. unfold distance, hypot. simpl. ring. Qed.

Lemma sweep_true_Q (z : ZebraDevice) (product : Product)
    (device_pos : point) (device_height : Z) :
  sweep z product device_pos device_height = true <->
  ((0 <= sensitivity z)%Q /\
   (radicand (distance (position product) device_pos)
    <= sensitivity z * sensitivity z)%Q) /\
  shelf_level product = device_height.
Proof.
  unfold sweep, root_le_Q.
  destruct (Qle_bool 0 (sensitivity z) && _ && _) eqn:E.
  - apply andb_true_iff in E as [E E3]. apply andb_true_iff in E as [E1 E2].
    apply Qle_bool_iff in E1, E2. apply Z.eqb_eq in E3. tauto.
  - split; [discriminate |]. intros [[H1 H2] H3].
    apply Qle_bool_iff in H1, H2. apply Z.eqb_eq in H3.
    rewrite H1, H2, H3 in E. discriminate.
Qed.

(** X16.  Held at the product's own position and shelf level, as
    [run_session] does, the device confirms exactly when its sensitivity
    is not negative; and what a device confirms, every device at least as
    sensitive confirms. *)
Theorem sweep_on_the_spot (z z' : ZebraDevice) (product : Product)
    (device_pos : point) (device_height : Z) :
  (sweep z product (position product) (shelf_level product) = true
   <-> (0 <= sensitivity z)%Q) /\
  ((sensitivity z <= sensitivity z')%Q ->
   sweep z product device_pos device_height = true ->
   sweep z' product device_pos device_height = true).
Proof.
  split.
  - rewrite sweep_true_Q.
    pose proof (distance_self_radicand (position product)) as H0.
    split; [tauto |]. intros H. split; [| reflexivity].
    split; [exact H |]. rewrite H0. nra.
  - rewrite !sweep_true_Q. intros Hle [[H1 H2] H3].
    split; [| exact H3]. split; [lra |].
    generalize dependent (radicand (distance (position product) device_pos)).
    intros q H2. nra.
Qed.

Lemma sweep_on_the_spot_witness :
  (sweep (mkZebra (6 # 10)) prod_um (position prod_um) (shelf_level prod_um)
   = true
   <-> (0 <= sensitivity (mkZebra (6 # 10)))%Q) /\
  (sweep (mkZebra (6 # 10)) prod_um origem 0 = true ->
   sweep (mkZebra 1) prod_um origem 0 = true).
Proof.
  destruct (sweep_on_the_spot (mkZebra (6 # 10)) (mkZebra 1) prod_um origem 0)
    as [H1 H2].
  split; [exact H1 |]. apply H2. discriminate.
Defined.

(** ** The cart *)

(** X17.  A new cart holds nothing; after [add] the cart holds the new
    identifier and what it held before, nothing else; [add] keeps the
    cart's name and lengthens the contents by one, also for an identifier
    that is already there. *)
Theorem cart_add_has (c : Cart) (u v id : string) :
  cart_has (new_cart id) v = false /\
  (cart_has (cart_add c u) v = true <-> v = u \/ cart_has c v = true) /\
  cart_id (cart_add c u) = cart_id c /\
  length (contents (cart_add c u)) = S (length (contents c)).
Proof.
  split; [reflexivity |]. split; [| split; [reflexivity |]].
  - unfold cart_has, cart_add. simpl. rewrite existsb_app, orb_true_iff.
    simpl. rewrite orb_false_r, String.eqb_eq. tauto.
  - unfold cart_add. simpl. rewrite length_app. simpl. lia.
Qed.

(** ** Parsing the spoken list *)

Section SpokenList.
Local Open Scope string_scope.

Abbreviation chars := list_ascii_of_string.

Lemma split_on_no_sep (sep : ascii) (s t : string) (c : ascii) :
  In t (split_on sep s) -> In c (chars t) -> c <> sep.
Proof.
  revert t. induction s as [| c0 s IH]; intros t; simpl.
  - intros [<- | []] [].
  - destruct (Ascii.eqb_spec c0 sep) as [-> | NE].
    + intros [<- | H]; [intros [] | apply IH, H].
    + destruct (split_on sep s) as [| t0 ts] eqn:Es.
      * intros [<- | []] [<- | []]. exact NE.
      * intros [<- | H].
        -- intros [<- | Hc]; [exact NE |]. apply (IH t0); [left; reflexivity | exact Hc].
        -- apply IH. right. exact H.
Qed.

Lemma lstrip_chars (s : string) (c : ascii) :
  In c (chars (lstrip s)) -> In c (chars s).
Proof.
  induction s as [| c0 s IH]; simpl; [tauto |].
  destruct (is_space c0); [intros H; right; apply IH, H | tauto].
Qed.

Lemma rstrip_chars (s : string) (c : ascii) :
  In c (chars (rstrip s)) -> In c (chars s).
Proof.
  induction s as [| c0 s IH]; simpl; [tauto |].
  destruct (rstrip s) as [| c1 t].
  - destruct (is_space c0); simpl; [tauto |]. intros [<- | []]. left. reflexivity.
  - simpl. intros [<- | H]; [left; reflexivity | right; apply IH, H].
Qed.

Lemma rstrip_idem (s : string) : rstrip (rstrip s) = rstrip s.
Proof.
  induction s as [| c s IH]; [reflexivity |].
  simpl. destruct (rstrip s) as [| c1 t] eqn:E.
  - destruct (is_space c) eqn:Ec; [reflexivity |]. simpl. rewrite Ec. reflexivity.
  - change (rstrip (String c (String c1 t)))
      with (match rstrip (String c1 t) with
            | EmptyString =>
                if is_space c then EmptyString else String c EmptyString
            | String a u => String c (String a u)
            end).
    rewrite IH. reflexivity.
Qed.

Lemma rstrip_lstrip (t : string) : rstrip t = t -> rstrip (lstrip t) = lstrip t.
Proof.
  induction t as [| c t IH]; [reflexivity |].
  intros H. simpl. destruct (is_space c) eqn:Ec; [| exact H].
  apply IH. simpl in H. destruct (rstrip t) as [| c1 u].
  - rewrite Ec in H. discriminate.
  - congruence.
Qed.

Lemma lstrip_idem (t : string) : lstrip (lstrip t) = lstrip t.
Proof.
  induction t as [| c t IH]; [reflexivity |].
  simpl. destruct (is_space c) eqn:Ec; [exact IH |]. simpl. rewrite Ec. reflexivity.
Qed.

Lemma strip_idem (s : string) : strip (strip s) = strip s.
Proof.
  unfold strip.
  rewrite (rstrip_lstrip (rstrip s) (rstrip_idem s)). apply lstrip_idem.
Qed.

Lemma strip_chars (s : string) (c : ascii) :
  In c (chars (strip s)) -> In c (chars s).
Proof. intros H. apply rstrip_chars, lstrip_chars, H. Qed.
End SpokenList.

(** X18.  Every item that [parse_shopping_list] returns is not empty, has
    no white space at either end and contains no comma. *)
Theorem parse_shopping_list_items (text item : string) :
  In item (parse_shopping_list text) ->
  item <> ""%string /\ strip item = item /\
  forall c, In c (list_ascii_of_string item) -> c <> ","%char.
Proof.
  unfold parse_shopping_list. rewrite filter_In, in_map_iff.
  intros [(b & <- & Hb) Hne].
  split; [| split].
  - apply is_empty_str_false. apply negb_true_iff, Hne.
  - apply strip_idem.
  - intros c Hc. apply strip_chars in Hc.
    exact (split_on_no_sep _ _ _ _ Hb Hc).
Qed.

Lemma parse_shopping_list_items_witness :
  "ovos"%string <> ""%string /\ strip "ovos" = "ovos"%string /\
  forall c, In c (list_ascii_of_string "ovos") -> c <> ","%char.
Proof.
  apply (parse_shopping_list_items "Leite magro e ovos , cafe" "ovos").
  vm_compute. right. left. reflexivity.
Defined.

(** ** What [plan_route] does with the items *)

Lemma procurar_accounts (sm : StoreMap) (items : list string) :
  (length (fst (procurar sm items)) + length (snd (procurar sm items))
   = length items)%nat /\
  (forall it, In it (snd (procurar sm items)) <->
     In it items /\ find_by_name sm it = None) /\
  (forall p, In p (fst (procurar sm items)) <->
     exists it, In it items /\ find_by_name sm it = Some p).
Proof.
  induction items as [| it0 items (IHl & IHa & IHf)]; simpl.
  - split; [reflexivity |]. split.
    + intros it. simpl. tauto.
    + intros p. simpl. split; [tauto | intros (it & [] & _)].
  - destruct (procurar sm items) as [found avisos]. simpl in *.
    destruct (find_by_name sm it0) as [p0 |] eqn:E; simpl.
    + split; [lia |]. split.
      * intros it. rewrite IHa. split.
        -- intros [H1 H2]. auto.
        -- intros [[<- | H1] H2]; [congruence | auto].
      * intros p. rewrite IHf. split.
        -- intros [<- | (it & H1 & H2)]; [exists it0; auto | exists it; auto].
        -- intros (it & [<- | H1] & H2); [left; congruence | right; exists it; auto].
    + split; [lia |]. split.
      * intros it. rewrite IHa. split.
        -- intros [<- | [H1 H2]]; auto.
        -- intros [[<- | H1] H2]; auto.
      * intros p. rewrite IHf. split.
        -- intros (it & H1 & H2). exists it. auto.
        -- intros (it & [<- | H1] & H2); [congruence | exists it; auto].
Qed.

Lemma meters_to_steps_root_default (d : root) :
  exists s : Z,
    meters_to_steps_root d step_length_default = Some s /\ (1 <= s)%Z.
Proof.
  unfold meters_to_steps_root. simpl. eexists. split; [reflexivity | lia].
Qed.

Lemma com_passos_cons (prev : point) (p : Product) (rest : list Product) :
  com_passos prev (p :: rest)
  = match meters_to_steps_root (distance prev (position p))
                               step_length_default with
    | Some s =>
        match com_passos (position p) rest with
        | Some r => Some ((p, s) :: r)
        | None => None
        end
    | None => None
    end.
Proof. reflexivity. Qed.

Lemma com_passos_steps (prev : point) (found : list Product)
    (route : list (Product * Z)) (p : Product) (s : Z) :
  com_passos prev found = Some route -> In (p, s) route -> (1 <= s)%Z.
Proof.
  revert prev route. induction found as [| q found IH]; intros prev route.
  - intros [= <-] [].
  - rewrite com_passos_cons.
    destruct (meters_to_steps_root_default (distance prev (position q)))
      as (s0 & Hs0 & Hge).
    rewrite Hs0.
    destruct (com_passos (position q) found) as [r |] eqn:Er; [| discriminate].
    intros [= <-] [[= <- <-] | Hin]; [exact Hge |].
    exact (IH _ _ Er Hin).
Qed.


(** ** Directions along the route *)

Lemma give_directions_steps (from_pos : point) (to_product : Product) :
  give_directions from_pos to_product
  = option_map
      (fun s => (s, direction_from_vector
                      ((position to_product).1 - from_pos.1)
                      ((position to_product).2 - from_pos.2)))
      (meters_to_steps_root (distance from_pos (position to_product))
                            step_length_default).
Proof.
  unfold give_directions.
  destruct (meters_to_steps_root _ _); reflexivity.
Qed.

Lemma com_passos_legs (prev : point) (found : list Product)
    (route : list (Product * Z)) :
  com_passos prev found = Some route ->
  (forall p s, route !! 0%nat = Some (p, s) ->
     exists d, give_directions prev p = Some (s, d)) /\
  (forall i p s q t,
     route !! i = Some (p, s) -> route !! S i = Some (q, t) ->
     exists d, give_directions (position p) q = Some (t, d)).
Proof.
  revert prev route. induction found as [| p0 found IH]; intros prev route.
  - intros [= <-]. split; [intros p s H | intros i p s q t H]; discriminate.
  - rewrite com_passos_cons.
    destruct (meters_to_steps_root (distance prev (position p0))
                                   step_length_default) as [s0 |] eqn:Es;
      [| discriminate].
    destruct (com_passos (position p0) found) as [r |] eqn:Er; [| discriminate].
    intros [= <-]. destruct (IH _ _ Er) as [IH0 IHS]. split.
    + intros p s [= <- <-]. rewrite give_directions_steps, Es. simpl. eauto.
    + intros [| i] p s q t Hp Hq.
      * injection Hp as <- <-. exact (IH0 q t Hq).
      * exact (IHS i p s q t Hp Hq).
Qed.

Lemma Qltb_comp (a a' b : Q) : (a == a')%Q -> Qltb a b = Qltb a' b.
Proof.
  intros E. unfold Qltb. f_equal. apply Qleb_comp; [reflexivity | exact E].
Qed.

(** X20.  The steps that [plan_route] stores with a stop are the steps that
    [give_directions] answers from the stop before it, and from the
    starting position for the first stop; so what [run_session] announces
    is what the route holds.  Asked at the product's own position,
    [give_directions] answers one step 'em frente'. *)
Theorem directions_match_route (sm : StoreMap) (start : point)
    (items : list string) (product : Product) :
  give_directions (position product) product = Some (1%Z, EmFrente) /\
  exists route : list (Product * Z),
    fst (plan_route sm start items) = Some route /\
    (forall p s, route !! 0%nat = Some (p, s) ->
       exists d, give_directions start p = Some (s, d)) /\
    (forall i p s q t,
       route !! i = Some (p, s) -> route !! S i = Some (q, t) ->
       exists d, give_directions (position p) q = Some (t, d)).
Proof.
  split.
  - rewrite give_directions_steps.
    unfold meters_to_steps_root. simpl Qeq_bool. cbn iota.
    rewrite (round_sqrt_comp _ 0).
    + unfold direction_from_vector.
      rewrite (Qltb_comp (Qabs ((position product).1 - (position product).1)) 0),
        (Qltb_comp (Qabs ((position product).2 - (position product).2)) 0).
      * reflexivity.
      * rewrite <- (Qabs_wd 0) by ring. reflexivity.
      * rewrite <- (Qabs_wd 0) by ring. reflexivity.
    + rewrite (distance_self_radicand (position product)). reflexivity.
  - destruct (plan_route_found sm start items) as (route & Hr & _).
    exists route. split; [exact Hr |].
    rewrite plan_route_rota in Hr. exact (com_passos_legs _ _ _ Hr).
Qed.

(** ** The session *)

Lemma sweep_at_product (z : ZebraDevice) (p : Product) :
  (0 <= sensitivity z)%Q ->
  sweep z p (position p) (shelf_level p) = true.
Proof.
  intros H. apply sweep_true_Q. split; [| reflexivity].
  split; [exact H |]. rewrite (distance_self_radicand (position p)). nra.
Qed.

Lemma give_directions_total (from_pos : point) (to_product : Product) :
  exists s d, give_directions from_pos to_product = Some (s, d).
Proof.
  rewrite give_directions_steps.
  destruct (meters_to_steps_root_default
              (distance from_pos (position to_product))) as (s & Hs & _).
  rewrite Hs. simpl. eauto.
Qed.

Lemma percorrer_cons (zebra : ZebraDevice) (p : Product) (s0 : Z)
    (rest : list (Product * Z)) (pos : point) (cart : Cart) :
  percorrer zebra ((p, s0) :: rest) pos cart
  = match give_directions pos p with
    | None => None
    | Some (steps_calc, dir) =>
        let found := sweep zebra p (position p) (shelf_level p) in
        let cart' := if found then cart_add cart (uid p) else cart in
        let ditas :=
          if found
          then [Confirmado; Adicionado (name p) (length (contents cart'))]
          else [NadaConfirmado] in
        match percorrer zebra rest (position p) cart' with
        | None => None
        | Some (falas, pos', cart'') =>
            Some (Ande steps_calc dir (name p)
                    :: PasseZebra (shelf_level p) (name p) :: ditas ++ falas,
                  pos', cart'')
        end
    end.
Proof.
  simpl. destruct (give_directions pos p) as [[s d] |]; [| reflexivity].
  simpl. destruct (percorrer zebra rest (position p) _) as [[[f q] c] |];
    reflexivity.
Qed.

(** With a sensitivity that is not negative every stop is confirmed and
    put in the cart. *)
Lemma percorrer_confirms (zebra : ZebraDevice) (route : list (Product * Z))
    (pos : point) (cart : Cart) :
  (0 <= sensitivity zebra)%Q ->
  exists falas pos',
    percorrer zebra route pos cart
    = Some (falas, pos',
            mkCart (cart_id cart)
                   (contents cart ++ map (fun ps => uid ps.1) route)) /\
    ~ In NadaConfirmado falas.
Proof.
  intros Hz. revert pos cart.
  induction route as [| [p s0] route IH]; intros pos cart.
  - exists [], pos. simpl. rewrite app_nil_r. destruct cart. auto.
  - rewrite percorrer_cons.
    destruct (give_directions_total pos p) as (s & d & Hgd). rewrite Hgd.
    rewrite (sweep_at_product zebra p Hz). cbn zeta. cbn iota.
    destruct (IH (position p) (cart_add cart (uid p))) as (falas & pos' & Hp & Hn).
    rewrite Hp. eexists _, pos'. split.
    + simpl. rewrite <- app_assoc. reflexivity.
    + simpl. intros [H | [H | [H | [H | H]]]]; try discriminate. exact (Hn H).
Qed.

(** X21.  Whatever the shopper says, [run_session] ends, and every product
    of the route is confirmed by the device and put in the cart, in the
    order of the route: the cart ends with the identifiers of the stops,
    nothing is left unconfirmed, and the items of the list are as many as
    the identifiers in the cart and the warnings together. *)
Theorem run_session_cart (text : string) :
  exists (route : list (Product * Z)) (falas : list fala) (cart : Cart),
    fst (plan_route build_demo_store (0, 0)%Q (parse_shopping_list text))
      = Some route /\
    run_session text = Some (falas, cart) /\
    contents cart = map (fun ps => uid ps.1) route /\
    ~ In NadaConfirmado falas /\
    (length (contents cart)
     + length (snd (plan_route build_demo_store (0, 0)%Q
                      (parse_shopping_list text)))
     = length (parse_shopping_list text))%nat.
Proof.
  set (items := parse_shopping_list text).
  destruct (plan_route_found build_demo_store (0, 0)%Q items)
    as (route & Hr & Hf & Ha).
  destruct (percorrer_confirms (mkZebra (6 # 10)) route (0, 0)%Q
              (new_cart "carrinho-001")) as (falas & pos' & Hp & Hn);
    [discriminate |].
  exists route. eexists _, _. split; [exact Hr |].
  unfold run_session. fold items. rewrite Hr. simpl mbind.
  cbn [option_bind]. rewrite Hp. cbn [option_bind].
  split; [reflexivity |]. split; [reflexivity |]. split.
  - simpl. intros [H | [H | H]]; try discriminate.
    apply in_app_or in H as [H | [H | []]]; [exact (Hn H) | discriminate].
  - simpl contents. rewrite length_map, Ha.
    destruct (procurar_accounts build_demo_store items) as (Hlen & _).
    rewrite <- Hlen. f_equal.
    rewrite <- (length_map fst route), Hf.
    apply Permutation_length, sort_by_perm.
Qed.

(** ** Equal distances keep the order of the items *)

Section Stable.
Context {A : Type} (key : A -> root) (d : Q).

Abbreviation at_key := (has_key key d).

Lemma insert_by_filter (x : A) (l : list A) :
  List.filter at_key (insert_by key x l) = List.filter at_key (x :: l).
Proof.
  induction l as [| y l IH]; [reflexivity |].
  simpl insert_by. destruct (root_leb (key x) (key y)) eqn:E; [reflexivity |].
  change (List.filter at_key (y :: insert_by key x l))
    with (if at_key y then y :: List.filter at_key (insert_by key x l)
          else List.filter at_key (insert_by key x l)).
  rewrite IH. simpl.
  destruct (at_key x) eqn:Ex; destruct (at_key y) eqn:Ey; try reflexivity.
  exfalso. unfold has_key in Ex, Ey. apply Qeq_bool_iff in Ex, Ey.
  unfold root_leb in E. apply Qle_bool_gt in E. lra.
Qed.

Lemma sort_by_filter (l : list A) :
  List.filter at_key (sort_by key l) = List.filter at_key l.
Proof.
  induction l as [| x l IH]; [reflexivity |].
  simpl sort_by. rewrite insert_by_filter. simpl. rewrite IH. reflexivity.
Qed.
End Stable.


(** ** Directions do not depend on the length of the vector *)

Section Scaling.
Local Open Scope Q_scope.

Lemma bool_eq_iff (a b : bool) : (a = true <-> b = true) -> a = b.
Proof. destruct a, b; intros [H1 H2]; auto; symmetry; auto. Qed.

Lemma Qle_bool_scale (k x y : Q) :
  0 < k -> Qle_bool (k * x) (k * y) = Qle_bool x y.
Proof.
  intros Hk. apply bool_eq_iff. rewrite !Qle_bool_iff.
  split; intros H; nra.
Qed.

Lemma Qltb_scale (k x y : Q) : 0 < k -> Qltb (k * x) (k * y) = Qltb x y.
Proof. intros Hk. unfold Qltb. rewrite Qle_bool_scale by exact Hk. reflexivity. Qed.

Lemma Qle_bool_scale_0 (k y : Q) : 0 < k -> Qle_bool 0 (k * y) = Qle_bool 0 y.
Proof.
  intros Hk. apply bool_eq_iff. rewrite !Qle_bool_iff. split; intros H; nra.
Qed.

Lemma Qltb_scale_0 (k y : Q) : 0 < k -> Qltb (k * y) 0 = Qltb y 0.
Proof.
  intros Hk. apply bool_eq_iff. rewrite !Qltb_lt. split; intros H; nra.
Qed.

Lemma Qltb_scale_opp (k x y : Q) :
  0 < k -> Qltb (k * x) (- (k * y)) = Qltb x (- y).
Proof.
  intros Hk. apply bool_eq_iff. rewrite !Qltb_lt. split; intros H; nra.
Qed.

Lemma angle_tests_scale (k dx dy : Q) :
  0 < k ->
  angle_gt_45 (Atan2 (k * dy) (k * dx)) = angle_gt_45 (Atan2 dy dx) /\
  angle_gt_135 (Atan2 (k * dy) (k * dx)) = angle_gt_135 (Atan2 dy dx) /\
  angle_lt_m45 (Atan2 (k * dy) (k * dx)) = angle_lt_m45 (Atan2 dy dx) /\
  angle_lt_m135 (Atan2 (k * dy) (k * dx)) = angle_lt_m135 (Atan2 dy dx).
Proof.
  intros Hk.
  unfold angle_gt_45, angle_gt_135, angle_lt_m45, angle_lt_m135. simpl.
  rewrite !Qle_bool_scale_0, !Qltb_scale_0, !Qltb_scale, !Qltb_scale_opp
    by exact Hk.
  auto.
Qed.
End Scaling.

(** X23.  The label of the inline classifier of [mostrar_rota_visual]
    depends only on the direction of the vector: stretching the vector by
    a positive factor does not change it.  The same holds for
    [direction_from_vector] as long as neither vector is near zero. *)
Theorem direction_scale_invariant (k dx dy : Q) :
  (0 < k)%Q ->
  direcao_de (k * dx) (k * dy) = direcao_de dx dy /\
  (direction_from_vector dx dy <> EmFrente ->
   direction_from_vector (k * dx) (k * dy) <> EmFrente ->
   direction_from_vector (k * dx) (k * dy) = direction_from_vector dx dy).
Proof.
  intros Hk.
  destruct (angle_tests_scale k dx dy Hk) as (H1 & H2 & H3 & H4).
  split.
  - unfold direcao_de. cbn zeta. rewrite H1, H2, H3, H4. reflexivity.
  - unfold direction_from_vector. cbn zeta. rewrite H1, H2, H3, H4.
    destruct (Qltb (Qabs dx) near_zero_threshold
              && Qltb (Qabs dy) near_zero_threshold); [congruence |].
    destruct (Qltb (Qabs (k * dx)) near_zero_threshold
              && Qltb (Qabs (k * dy)) near_zero_threshold); [congruence |].
    reflexivity.
Qed.

Lemma direction_scale_invariant_witness :
  direcao_de (3 * 1) (3 * 2) = direcao_de 1 2 /\
  (direction_from_vector 1 2 <> EmFrente ->
   direction_from_vector (3 * 1) (3 * 2) <> EmFrente ->
   direction_from_vector (3 * 1) (3 * 2) = direction_from_vector 1 2).
Proof. apply (direction_scale_invariant 3 1 2). reflexivity. Defined.

(** ** The visual route and the order of the list *)

Lemma selecionados_same_items (l l' : list string)
    (catalogo : list Localizacao) :
  (forall i, In i l <-> In i l') ->
  selecionados l catalogo = selecionados l' catalogo.
Proof.
  intros H. unfold selecionados. apply filter_ext. intros p.
  apply bool_eq_iff. rewrite !existsb_exists.
  split; intros (x & Hx & Hs); exists x; split; auto; apply H; exact Hx.
Qed.

(** X24.  [mostrar_rota_visual] looks at the saved list only as a set of
    items: two lists with the same items, in any order and with any
    repetitions, give the same answer over the same catalogue. *)
Theorem mostrar_rota_same_items (fs fs' : Ficheiros) (l l' : list string) :
  ficheiro_lista fs = Some l ->
  ficheiro_lista fs' = Some l' ->
  ficheiro_localizacoes fs = ficheiro_localizacoes fs' ->
  (forall i, In i l <-> In i l') ->
  mostrar_rota_visual fs = mostrar_rota_visual fs'.
Proof.
  intros Hl Hl' Hc Hsame. unfold mostrar_rota_visual.
  rewrite Hl, Hl', <- Hc.
  destruct (ficheiro_localizacoes fs) as [catalogo |]; [| reflexivity].
  rewrite (selecionados_same_items
             (map (fun i => strip (lower i)) l)
             (map (fun i => strip (lower i)) l') catalogo); [reflexivity |].
  intros i. rewrite !in_map_iff.
  split; intros (x & Hx & Hin); exists x; split; auto; apply Hsame; exact Hin.
Qed.

Lemma mostrar_rota_same_items_witness :
  mostrar_rota_visual ficheiros_leite
  = mostrar_rota_visual
      {| ficheiro_lista := Some ["cafe"; "soja"; "pao"; "cafe"]%string;
         ficheiro_localizacoes := Some catalogo_leite |}.
Proof.
  apply (mostrar_rota_same_items ficheiros_leite
           {| ficheiro_lista := Some ["cafe"; "soja"; "pao"; "cafe"]%string;
              ficheiro_localizacoes := Some catalogo_leite |}
           ["soja"; "pao"; "cafe"]%string
           ["cafe"; "soja"; "pao"; "cafe"]%string);
    try reflexivity.
  intros i. simpl. tauto.
Defined.
